(** * ExtractionContainers: the external-memory preparation stage of the extractor

    A shallow embedding of [extractor/extraction_containers.cpp]: the sort and
    merge-join passes that resolve turn restrictions, filter the used nodes,
    attach coordinates and weights to edges, and the three writers with their
    back-patched count fields.

    Conventions.
    - [unsigned] values (node ids, way ids, counters) are [N]; a counter that
      the code increments wraps at 2^32 and the wrap is written out.
    - [int] values (fixed-point coordinates, edge weights) are [Z].
    - [double] values are Rocq's primitive binary64 floats, whose operations
      round like the hardware's.
    - [std::string] and file contents are lists of bytes.
    - stxxl vectors are lists; [stxxl::sort] is an interface ([ExternalSort]):
      any procedure that either throws or returns a sorted permutation, with
      no promise about the order of records with equal keys.
    - exceptions are an explicit outcome, threaded by a small state and error
      monad over the containers, the files on disk and standard error; the
      vectors are sorted in place, so a step that raises leaves behind what it
      had done until then.
    - [BOOST_ASSERT] is compiled out (release build); timing macros and the
      progress messages on standard output are left out. *)

From Stdlib Require Import ZArith NArith List Lia Floats String.
From Stdlib.Strings Require Import Byte.
From stdpp Require Import base list gmap sets sorting strings.

Local Open Scope N_scope.

(** ** Scalars *)

Abbreviation NodeID := N (only parsing).
Abbreviation EdgeID := N (only parsing).

Definition UINT_MAX : N := 2 ^ 32 - 1.
Definition INT_MIN : Z := (- 2 ^ 31)%Z.
Definition INT_MAX : Z := (2 ^ 31 - 1)%Z.

(** Modelled from the spec: the declaration of [SPECIAL_NODEID] is in a header
    that is not part of the sources at hand; the spec calls it the
    maximum-value unsigned sentinel. *)
Definition SPECIAL_NODEID : NodeID := UINT_MAX.

(** [++counter] on an [unsigned]. *)
Definition incr_unsigned (n : N) : N := (n + 1) mod 2 ^ 32.

(** [static_cast<unsigned>(x)] for a [size_t] value. *)
Definition to_unsigned (n : N) : N := n mod 2 ^ 32.

(** ** Records

    Modelled from the spec: the record declarations live in headers that are
    not part of the sources at hand. The fields are the ones the code reads
    and writes, with the types of the spec's data model. *)

Record FixedPointCoordinate := {
  coord_lat : Z;
  coord_lon : Z
}.

Record ExternalMemoryNode := {
  lat : Z;
  lon : Z;
  node_id : NodeID;
  bollard : bool;
  traffic_light : bool
}.

Record NodeBasedEdge := {
  source : NodeID;
  target : NodeID;
  name_id : N;
  weight : Z;
  forward : bool;
  backward : bool;
  roundabout : bool;
  in_tiny_cc : bool;
  access_restricted : bool;
  travel_mode : N
}.

(** The code names three weight types; its [switch] sends every other value
    of the enumeration to [default], for which [INVALID] stands. *)
Inductive WeightType := INVALID | SPEED | EDGE_DURATION | WAY_DURATION.

(** [duration] and [speed] name the same scalar (the spec's
    [speed_or_duration]). *)
Record WeightData := {
  speed_or_duration : float;
  type : WeightType
}.
Definition duration (d : WeightData) : float := speed_or_duration d.
Definition speed (d : WeightData) : float := speed_or_duration d.

Record InternalExtractorEdge := {
  result : NodeBasedEdge;
  weight_data : WeightData;
  source_coordinate : FixedPointCoordinate
}.

Record FirstAndLastSegmentOfWay := {
  way_id : EdgeID;
  first_segment_source_id : NodeID;
  first_segment_target_id : NodeID;
  last_segment_source_id : NodeID;
  last_segment_target_id : NodeID
}.

Record WayOrNode := {
  way : EdgeID;
  node : NodeID
}.

Record TurnRestriction := {
  via : WayOrNode;
  from : WayOrNode;
  to : WayOrNode;
  is_only : bool
}.

Record InputRestrictionContainer := {
  restriction : TurnRestriction
}.

Record ExtractionContainers := {
  used_node_id_list : list NodeID;
  all_nodes_list : list ExternalMemoryNode;
  all_edges_list : list InternalExtractorEdge;
  name_list : list (list byte);
  restrictions_list : list InputRestrictionContainer;
  way_start_end_id_list : list FirstAndLastSegmentOfWay
}.

(** Field updates, one per assignment the code makes. *)

Definition set_source_coordinate (e : InternalExtractorEdge) (la lo : Z)
  : InternalExtractorEdge :=
  {| result := result e;
     weight_data := weight_data e;
     source_coordinate := {| coord_lat := la; coord_lon := lo |} |}.

Definition set_weight (e : InternalExtractorEdge) (w : Z) : InternalExtractorEdge :=
  {| result :=
       {| source := source (result e);
          target := target (result e);
          name_id := name_id (result e);
          weight := w;
          forward := forward (result e);
          backward := backward (result e);
          roundabout := roundabout (result e);
          in_tiny_cc := in_tiny_cc (result e);
          access_restricted := access_restricted (result e);
          travel_mode := travel_mode (result e) |};
     weight_data := weight_data e;
     source_coordinate := source_coordinate e |}.

Definition set_from_node (r : InputRestrictionContainer) (n : NodeID)
  : InputRestrictionContainer :=
  {| restriction :=
       {| via := via (restriction r);
          from := {| way := way (from (restriction r)); node := n |};
          to := to (restriction r);
          is_only := is_only (restriction r) |} |}.

Definition set_to_node (r : InputRestrictionContainer) (n : NodeID)
  : InputRestrictionContainer :=
  {| restriction :=
       {| via := via (restriction r);
          from := from (restriction r);
          to := {| way := way (to (restriction r)); node := n |};
          is_only := is_only (restriction r) |} |}.

Definition with_used_node_ids (c : ExtractionContainers) (l : list NodeID) :=
  {| used_node_id_list := l;
     all_nodes_list := all_nodes_list c;
     all_edges_list := all_edges_list c;
     name_list := name_list c;
     restrictions_list := restrictions_list c;
     way_start_end_id_list := way_start_end_id_list c |}.

Definition with_all_nodes (c : ExtractionContainers) (l : list ExternalMemoryNode) :=
  {| used_node_id_list := used_node_id_list c;
     all_nodes_list := l;
     all_edges_list := all_edges_list c;
     name_list := name_list c;
     restrictions_list := restrictions_list c;
     way_start_end_id_list := way_start_end_id_list c |}.

Definition with_all_edges (c : ExtractionContainers) (l : list InternalExtractorEdge) :=
  {| used_node_id_list := used_node_id_list c;
     all_nodes_list := all_nodes_list c;
     all_edges_list := l;
     name_list := name_list c;
     restrictions_list := restrictions_list c;
     way_start_end_id_list := way_start_end_id_list c |}.

Definition with_restrictions (c : ExtractionContainers)
    (l : list InputRestrictionContainer) :=
  {| used_node_id_list := used_node_id_list c;
     all_nodes_list := all_nodes_list c;
     all_edges_list := all_edges_list c;
     name_list := name_list c;
     restrictions_list := l;
     way_start_end_id_list := way_start_end_id_list c |}.

Definition with_way_start_end (c : ExtractionContainers)
    (l : list FirstAndLastSegmentOfWay) :=
  {| used_node_id_list := used_node_id_list c;
     all_nodes_list := all_nodes_list c;
     all_edges_list := all_edges_list c;
     name_list := name_list c;
     restrictions_list := restrictions_list c;
     way_start_end_id_list := l |}.

(** The constructor: every vector empty, the empty name interned at index 0. *)
Definition ExtractionContainers_new : ExtractionContainers :=
  {| used_node_id_list := [];
     all_nodes_list := [];
     all_edges_list := [];
     name_list := [ [] ];
     restrictions_list := [];
     way_start_end_id_list := [] |}.

(** ** Exceptions *)

Record std_exception := { what : string }.

Inductive outcome (A : Type) :=
| Returned (a : A)
| Raised (e : std_exception).
Arguments Returned {A} a.
Arguments Raised {A} e.

Definition obind {A B} (m : outcome A) (k : A → outcome B) : outcome B :=
  match m with
  | Returned a => k a
  | Raised e => Raised e
  end.

(** ** Comparators and the external sort

    Every comparator functor of the containers orders records by one unsigned
    key with [<]. *)

Record comparator (A : Type) := { key : A → N }.
Arguments key {A} c a.

(** [cmp(a, b)] *)
Definition less {A} (cmp : comparator A) (a b : A) : bool := key cmp a <? key cmp b.

(** [ordered cmp a b]: [b] is not less than [a], so [a] may stand before [b]
    in a sorted vector. *)
Definition ordered {A} (cmp : comparator A) (a b : A) : Prop :=
  (key cmp a ≤ key cmp b)%N.

Definition Cmp : comparator NodeID := {| key := λ n, n |}.
Definition ExternalMemoryNodeSTXXLCompare : comparator ExternalMemoryNode :=
  {| key := node_id |}.
Definition CmpEdgeByStartID : comparator InternalExtractorEdge :=
  {| key := λ e, source (result e) |}.
Definition CmpEdgeByTargetID : comparator InternalExtractorEdge :=
  {| key := λ e, target (result e) |}.
Definition FirstAndLastSegmentOfWayStxxlCompare : comparator FirstAndLastSegmentOfWay :=
  {| key := way_id |}.
Definition CmpRestrictionContainerByFrom : comparator InputRestrictionContainer :=
  {| key := λ r, way (from (restriction r)) |}.
Definition CmpRestrictionContainerByTo : comparator InputRestrictionContainer :=
  {| key := λ r, way (to (restriction r)) |}.

(** [stxxl::sort]: it may fail (the disks or the memory budget are exhausted)
    and is not stable. It sorts the vector in place; of what a sort that fails
    leaves in the vector, [stxxl_sort_interrupted], nothing is known. *)
Class ExternalSort := {
  stxxl_sort : ∀ {A : Type}, comparator A → list A → outcome (list A);
  stxxl_sort_interrupted : ∀ {A : Type}, comparator A → list A → list A;
  stxxl_sort_spec : ∀ (A : Type) (cmp : comparator A) (l l' : list A),
    stxxl_sort cmp l = Returned l' →
    l' ≡ₚ l ∧ StronglySorted (ordered cmp) l'
}.

Global Instance outcome_ret : MRet outcome := λ A a, Returned a.
Global Instance outcome_bind : MBind outcome := λ A B k m, obind m k.

(** ** Output streams

    A [std::ofstream] opened in binary mode: the bytes written so far and the
    put position. A write at the put position overwrites what is there and
    extends the file at its end; a write at a position past the end leaves
    zero bytes in between. *)

Record ofstream := {
  contents : list byte;
  put : nat
}.

Definition ofstream_open : ofstream := {| contents := []; put := 0 |}.

Definition write (s : ofstream) (bs : list byte) : ofstream :=
  {| contents :=
       take (put s) (contents s) ++ replicate (put s - length (contents s)) x00
         ++ bs ++ drop (put s + length bs) (contents s);
     put := put s + length bs |}.

Definition tellp (s : ofstream) : nat := put s.

Definition seekp (s : ofstream) (p : nat) : ofstream :=
  {| contents := contents s; put := p |}.

(** The object representation of an [unsigned]: four bytes, least
    significant first. *)
Definition byte_of_N (n : N) : byte :=
  match Byte.of_N (n mod 256) with
  | Some b => b
  | None => x00
  end.

Definition bytes_of_unsigned (n : N) : list byte :=
  [ byte_of_N n; byte_of_N (n / 256); byte_of_N (n / 65536); byte_of_N (n / 16777216) ].

Definition unsigned_of_bytes (bs : list byte) : N :=
  foldr (λ b acc, Byte.to_N b + 256 * acc) 0 bs.

(** [read_unsigned bs p]: the [unsigned] stored at offset [p] of a file. *)
Definition read_unsigned (bs : list byte) (p : nat) : N :=
  unsigned_of_bytes (take 4 (drop p bs)).

(** ** The range table

    Modelled from the spec: [range_table.hpp] (the constructor, the lookup and
    the stream output of [RangeTable]) is not part of the sources at hand. The
    spec describes a compact index that stores block-summed prefix sums plus
    the lengths of the entries of each block, and that recovers for an index
    [i] the byte range [[offset i, offset i + length i)] of the blob. *)

Definition BLOCK_SIZE : nat := 16.

Definition sum_N (l : list N) : N := foldr N.add 0 l.

Record RangeTable := {
  block_offsets : list N;
  diff_blocks : list (list N)
}.

Definition number_of_blocks (n : nat) : nat := ((n + BLOCK_SIZE - 1) / BLOCK_SIZE)%nat.

Definition RangeTable_new (lengths : list N) : RangeTable :=
  let blocks := seq 0 (number_of_blocks (length lengths)) in
  {| block_offsets := (λ b, sum_N (take (b * BLOCK_SIZE)%nat lengths)) <$> blocks;
     diff_blocks := (λ b, take BLOCK_SIZE (drop (b * BLOCK_SIZE)%nat lengths)) <$> blocks |}.

Definition RangeTable_lookup (t : RangeTable) (i : nat) : option (N * N) :=
  offset ← block_offsets t !! (i / BLOCK_SIZE)%nat;
  block ← diff_blocks t !! (i / BLOCK_SIZE)%nat;
  len ← block !! (i mod BLOCK_SIZE)%nat;
  let first := offset + sum_N (take (i mod BLOCK_SIZE)%nat block) in
  Some (first, first + len).

(** The bytes [[first, last)] of a blob. *)
Definition byte_range (blob : list byte) (range : N * N) : list byte :=
  take (N.to_nat (snd range - fst range)) (drop (N.to_nat (fst range)) blob).

(** The object representations the writers copy to the files. Their layout is
    fixed by headers outside the sources at hand, so it is an interface: each
    record type has one size, [sizeof]. *)
Class Layout := {
  fingerprint : list byte;
  sizeof_ExternalMemoryNode : nat;
  bytes_of_ExternalMemoryNode : ExternalMemoryNode → list byte;
  length_bytes_of_ExternalMemoryNode :
    ∀ n, length (bytes_of_ExternalMemoryNode n) = sizeof_ExternalMemoryNode;
  sizeof_NodeBasedEdge : nat;
  bytes_of_NodeBasedEdge : NodeBasedEdge → list byte;
  length_bytes_of_NodeBasedEdge :
    ∀ e, length (bytes_of_NodeBasedEdge e) = sizeof_NodeBasedEdge;
  sizeof_TurnRestriction : nat;
  bytes_of_TurnRestriction : TurnRestriction → list byte;
  length_bytes_of_TurnRestriction :
    ∀ r, length (bytes_of_TurnRestriction r) = sizeof_TurnRestriction;
  bytes_of_RangeTable : RangeTable → list byte
}.

Definition sizeof_FingerPrint `{Layout} : nat := length fingerprint.

(** ** PrepareNodes *)

(** [std::unique] on a vector of ids followed by the [resize]: of every run of
    equal adjacent ids the first is kept. *)
Fixpoint unique_from (x : NodeID) (l : list NodeID) : list NodeID :=
  match l with
  | [] => [x]
  | y :: l' => if x =? y then unique_from x l' else x :: unique_from y l'
  end.

Definition unique (l : list NodeID) : list NodeID :=
  match l with
  | [] => []
  | x :: l' => unique_from x l'
  end.

Definition PrepareNodes `{ExternalSort} (c : ExtractionContainers)
  : outcome ExtractionContainers :=
  used ← stxxl_sort Cmp (used_node_id_list c);
  let c1 := with_used_node_ids c (unique used) in
  nodes ← stxxl_sort ExternalMemoryNodeSTXXLCompare (all_nodes_list c1);
  mret (with_all_nodes c1 nodes).

(** ** WriteNodes *)

(** The merging step of the two sorted lists; the state is the stream and
    [number_of_used_nodes]. *)
Fixpoint write_used_nodes `{Layout} (ids : list NodeID)
  : list ExternalMemoryNode → ofstream * N → ofstream * N :=
  fix scan_nodes (nodes : list ExternalMemoryNode) (st : ofstream * N) : ofstream * N :=
    match ids, nodes with
    | id :: ids', n :: nodes' =>
        if id <? node_id n then write_used_nodes ids' nodes st
        else if node_id n <? id then scan_nodes nodes' st
        else write_used_nodes ids' nodes'
               (write (fst st) (bytes_of_ExternalMemoryNode n), incr_unsigned (snd st))
    | _, _ => st
    end.

Definition WriteNodes `{Layout} (c : ExtractionContainers) (file_out_stream : ofstream)
  : ofstream :=
  let s1 := write file_out_stream (bytes_of_unsigned 0) in
  let '(s2, number_of_used_nodes) :=
    write_used_nodes (used_node_id_list c) (all_nodes_list c) (s1, 0) in
  let previous_file_position := tellp s2 in
  let s3 := seekp s2 (0 + sizeof_FingerPrint) in
  let s4 := write s3 (bytes_of_unsigned number_of_used_nodes) in
  seekp s4 previous_file_position.

(** ** PrepareEdges *)

(** [coordinate_calculation::euclidean_distance], a function of another
    translation unit: the distance in metres between two fixed-point
    coordinates, given as [lat1 lon1 lat2 lon2]. *)
Class CoordinateCalculation := euclidean_distance : Z → Z → Z → Z → float.

(** The first merge of [PrepareEdges]: edges sorted by source against the
    nodes; a matching edge gets the node's coordinate, and only the edge
    cursor advances on a match. *)
Fixpoint set_start_coords (edges : list InternalExtractorEdge)
  : list ExternalMemoryNode → list InternalExtractorEdge :=
  fix scan_nodes (nodes : list ExternalMemoryNode) : list InternalExtractorEdge :=
    match edges, nodes with
    | e :: edges', n :: nodes' =>
        if source (result e) <? node_id n then e :: set_start_coords edges' nodes
        else if node_id n <? source (result e) then scan_nodes nodes'
        else set_source_coordinate e (lat n) (lon n) :: set_start_coords edges' nodes
    | _, _ => edges
    end.

(** [osrm::exception(msg)] builds an exception object. *)
Definition osrm_exception (msg : string) : std_exception := {| what := msg |}.

Set Warnings "-inexact-float".

(** The weight lambda. In its [default] branch the exception object is built
    and dropped (there is no [throw]), and control reaches [return -1.0]. *)
Definition edge_weight (distance : float) (data : WeightData) : float :=
  match type data with
  | EDGE_DURATION | WAY_DURATION => (duration data * 10)%float
  | SPEED => ((distance * 10) / (speed data / 3.6))%float
  | _ => let _ := osrm_exception "invalid weight type" in (-1.0)%float
  end.

(** The integer that [std::floor x] holds, for a finite [x]. *)
Definition floor_Z (x : float) : option Z :=
  match Prim2SF x with
  | S754_zero _ => Some 0%Z
  | S754_finite s m e =>
      let v := if s then Z.neg m else Z.pos m in
      Some (if (0 <=? e)%Z then (v * 2 ^ e)%Z else Z.shiftr v (- e))
  | S754_infinity _ => None
  | S754_nan => None
  end.

Definition in_int_range (z : Z) : bool := ((INT_MIN <=? z) && (z <=? INT_MAX))%Z.

(** [(int)std::floor(x)]. The conversion is undefined in C++ when the value is
    not representable in [int] (out of range, infinite or NaN); the model
    takes the result of the x86-64 conversion instruction there, [INT_MIN]. *)
Definition int_of_floor (x : float) : Z :=
  match floor_Z x with
  | Some z => if in_int_range z then z else INT_MIN
  | None => INT_MIN
  end.

(** [std::max(1, (int)std::floor(weight + .5))] *)
Definition integer_weight (weight : float) : Z :=
  Z.max 1 (int_of_floor (weight + 0.5)%float).

Definition source_coordinate_is_set (e : InternalExtractorEdge) : bool :=
  negb (coord_lat (source_coordinate e) =? INT_MIN)%Z
  && negb (coord_lon (source_coordinate e) =? INT_MIN)%Z.

(** The body of the second merge on a match of the edge's target. *)
Definition assign_weight `{CoordinateCalculation}
    (n : ExternalMemoryNode) (e : InternalExtractorEdge) : InternalExtractorEdge :=
  if source_coordinate_is_set e then
    let distance :=
      euclidean_distance (coord_lat (source_coordinate e)) (coord_lon (source_coordinate e))
                         (lat n) (lon n) in
    let weight := edge_weight distance (weight_data e) in
    set_weight e (integer_weight weight)
  else e.

(** The second merge of [PrepareEdges]: edges sorted by target against the
    nodes. *)
Fixpoint compute_weights `{CoordinateCalculation} (edges : list InternalExtractorEdge)
  : list ExternalMemoryNode → list InternalExtractorEdge :=
  fix scan_nodes (nodes : list ExternalMemoryNode) : list InternalExtractorEdge :=
    match edges, nodes with
    | e :: edges', n :: nodes' =>
        if target (result e) <? node_id n then e :: compute_weights edges' nodes
        else if node_id n <? target (result e) then scan_nodes nodes'
        else assign_weight n e :: compute_weights edges' nodes
    | _, _ => edges
    end.

Definition PrepareEdges `{ExternalSort} `{CoordinateCalculation} (c : ExtractionContainers)
  : outcome ExtractionContainers :=
  by_start ← stxxl_sort CmpEdgeByStartID (all_edges_list c);
  let c1 := with_all_edges c (set_start_coords by_start (all_nodes_list c)) in
  by_target ← stxxl_sort CmpEdgeByTargetID (all_edges_list c1);
  mret (with_all_edges c1 (compute_weights by_target (all_nodes_list c1))).

(** ** WriteEdges *)

Definition write_used_edges `{Layout} (edges : list InternalExtractorEdge)
    (st : ofstream * N) : ofstream * N :=
  foldl (λ st edge,
           if (0 <? weight (result edge))%Z
           then (write (fst st) (bytes_of_NodeBasedEdge (result edge)),
                 incr_unsigned (snd st))
           else st)
        st edges.

Definition WriteEdges `{Layout} (c : ExtractionContainers) (file_out_stream : ofstream)
  : ofstream :=
  let start_position := tellp file_out_stream in
  let s1 := write file_out_stream (bytes_of_unsigned 0) in
  let '(s2, number_of_used_edges) := write_used_edges (all_edges_list c) (s1, 0) in
  let s3 := seekp s2 start_position in
  write s3 (bytes_of_unsigned number_of_used_edges).

(** ** PrepareRestrictions *)

(** What the first merge does to a restriction whose [from.way] is the way
    under the cursor. *)
Definition fix_start (w : FirstAndLastSegmentOfWay) (r : InputRestrictionContainer)
  : InputRestrictionContainer :=
  let via_node_id := node (via (restriction r)) in
  if first_segment_source_id w =? via_node_id
  then set_from_node r (first_segment_target_id w)
  else if last_segment_target_id w =? via_node_id
  then set_from_node r (last_segment_source_id w)
  else r.

Definition fix_end (w : FirstAndLastSegmentOfWay) (r : InputRestrictionContainer)
  : InputRestrictionContainer :=
  let via_node_id := node (via (restriction r)) in
  if first_segment_source_id w =? via_node_id
  then set_to_node r (first_segment_target_id w)
  else if last_segment_target_id w =? via_node_id
  then set_to_node r (last_segment_source_id w)
  else r.

Fixpoint fix_restriction_starts (restrictions : list InputRestrictionContainer)
  : list FirstAndLastSegmentOfWay → list InputRestrictionContainer :=
  fix scan_ways (ways : list FirstAndLastSegmentOfWay) : list InputRestrictionContainer :=
    match restrictions, ways with
    | r :: restrictions', w :: ways' =>
        if way_id w <? way (from (restriction r)) then scan_ways ways'
        else if way (from (restriction r)) <? way_id w
        then r :: fix_restriction_starts restrictions' ways
        else fix_start w r :: fix_restriction_starts restrictions' ways
    | _, _ => restrictions
    end.

Fixpoint fix_restriction_ends (restrictions : list InputRestrictionContainer)
  : list FirstAndLastSegmentOfWay → list InputRestrictionContainer :=
  fix scan_ways (ways : list FirstAndLastSegmentOfWay) : list InputRestrictionContainer :=
    match restrictions, ways with
    | r :: restrictions', w :: ways' =>
        if way_id w <? way (to (restriction r)) then scan_ways ways'
        else if way (to (restriction r)) <? way_id w
        then r :: fix_restriction_ends restrictions' ways
        else fix_end w r :: fix_restriction_ends restrictions' ways
    | _, _ => restrictions
    end.

(** Pass A: sort the ways, sort the restrictions by [from.way], fix the
    restriction starts. *)
Definition PassA `{ExternalSort} (c : ExtractionContainers) : outcome ExtractionContainers :=
  ways ← stxxl_sort FirstAndLastSegmentOfWayStxxlCompare (way_start_end_id_list c);
  let c1 := with_way_start_end c ways in
  by_from ← stxxl_sort CmpRestrictionContainerByFrom (restrictions_list c1);
  mret (with_restrictions c1 (fix_restriction_starts by_from (way_start_end_id_list c1))).

(** Pass B: sort the restrictions by [to.way], fix the restriction ends. *)
Definition PassB `{ExternalSort} (c : ExtractionContainers) : outcome ExtractionContainers :=
  by_to ← stxxl_sort CmpRestrictionContainerByTo (restrictions_list c);
  mret (with_restrictions c (fix_restriction_ends by_to (way_start_end_id_list c))).

Definition PrepareRestrictions `{ExternalSort} (c : ExtractionContainers)
  : outcome ExtractionContainers :=
  c1 ← PassA c;
  PassB c1.

(** ** WriteRestrictions *)

Definition is_usable (r : InputRestrictionContainer) : bool :=
  negb (SPECIAL_NODEID =? node (from (restriction r)))
  && negb (SPECIAL_NODEID =? node (to (restriction r))).

Definition write_usable_restrictions `{Layout} (restrictions : list InputRestrictionContainer)
    (st : ofstream * N) : ofstream * N :=
  foldl (λ st restriction_container,
           if is_usable restriction_container
           then (write (fst st) (bytes_of_TurnRestriction (restriction restriction_container)),
                 incr_unsigned (snd st))
           else st)
        st restrictions.

(** The bytes of the file at [path] once the stream is closed. *)
Definition WriteRestrictions `{Layout} (c : ExtractionContainers) : list byte :=
  let s0 := write ofstream_open fingerprint in
  let count_position := tellp s0 in
  let s1 := write s0 (bytes_of_unsigned 0) in
  let '(s2, written_restriction_count) :=
    write_usable_restrictions (restrictions_list c) (s1, 0) in
  let s3 := seekp s2 count_position in
  contents (write s3 (bytes_of_unsigned written_restriction_count)).

(** ** WriteNames *)

(** [std::min(static_cast<unsigned>(temp_string.length()), 255u)] *)
Definition string_length (temp_string : list byte) : N :=
  N.min (to_unsigned (N.of_nat (length temp_string))) 255.

(** The first loop: [total_length] and [name_lengths]. *)
Definition measure_names (names : list (list byte)) (st : N * list N) : N * list N :=
  foldl (λ st temp_string,
           ((fst st + string_length temp_string) mod 2 ^ 32,
            snd st ++ [string_length temp_string]))
        st names.

(** The second loop: all chars consecutively. *)
Definition write_chars (names : list (list byte)) (s : ofstream) : ofstream :=
  foldl (λ s temp_string, write s (take (N.to_nat (string_length temp_string)) temp_string))
        s names.

(** The bytes of the name file once the stream is closed. *)
Definition WriteNames `{Layout} (c : ExtractionContainers) : list byte :=
  let '(total_length, name_lengths) := measure_names (name_list c) (0, []) in
  let name_index_range := RangeTable_new name_lengths in
  let s1 := write ofstream_open (bytes_of_RangeTable name_index_range) in
  let s2 := write s1 (bytes_of_unsigned total_length) in
  contents (write_chars (name_list c) s2).

(** ** PrepareData

    The state the pipeline acts on: the containers, the files on disk, the
    paths at which a file can be opened for writing, and what was printed on
    standard error. A step either returns or raises; the state reached when
    it raises is kept: a vector that was sorted in place stays sorted, and
    whatever was written before stays on disk. *)

Record world := {
  containers : ExtractionContainers;
  files : gmap string (list byte);
  can_open : string → bool;
  cerr : list string
}.

Definition with_containers (w : world) (c : ExtractionContainers) : world :=
  {| containers := c; files := files w; can_open := can_open w; cerr := cerr w |}.

Definition M (A : Type) : Type := world → outcome A * world.

Definition M_ret {A} (a : A) : M A := λ w, (Returned a, w).

Definition M_bind {A B} (m : M A) (k : A → M B) : M B :=
  λ w, match m w with
       | (Returned a, w') => k a w'
       | (Raised e, w') => (Raised e, w')
       end.

Global Instance M_mret : MRet M := @M_ret.
Global Instance M_mbind : MBind M := λ A B k m, M_bind m k.

(** [try { body } catch (const std::exception &e) { handler }] *)
Definition try_catch {A} (body : M A) (handler : std_exception → M A) : M A :=
  λ w, match body w with
       | (Returned a, w') => (Returned a, w')
       | (Raised e, w') => handler e w'
       end.

(** [stxxl::sort(v.begin(), v.end(), cmp, stxxl_memory)] on the vector [v] of
    the containers: the vector itself is sorted, and a sort that raises leaves
    it in the state it had reached. *)
Definition sort_in_place `{ExternalSort} {A} (cmp : comparator A)
    (vector : ExtractionContainers → list A)
    (assign : ExtractionContainers → list A → ExtractionContainers) : M unit :=
  λ w, let c := containers w in
       match stxxl_sort cmp (vector c) with
       | Returned sorted => (Returned (), with_containers w (assign c sorted))
       | Raised e =>
           (Raised e, with_containers w (assign c (stxxl_sort_interrupted cmp (vector c))))
       end.

(** A loop over the vectors; none of them raises. *)
Definition in_place (f : ExtractionContainers → ExtractionContainers) : M unit :=
  λ w, (Returned (), with_containers w (f (containers w))).

(** The three [Prepare...] member functions as [PrepareData] calls them, on
    the vectors of the object. *)
Definition PrepareRestrictions_in_place `{ExternalSort} : M unit :=
  sort_in_place FirstAndLastSegmentOfWayStxxlCompare
    way_start_end_id_list with_way_start_end;;
  sort_in_place CmpRestrictionContainerByFrom restrictions_list with_restrictions;;
  in_place (λ c, with_restrictions c
                   (fix_restriction_starts (restrictions_list c) (way_start_end_id_list c)));;
  sort_in_place CmpRestrictionContainerByTo restrictions_list with_restrictions;;
  in_place (λ c, with_restrictions c
                   (fix_restriction_ends (restrictions_list c) (way_start_end_id_list c))).

Definition PrepareNodes_in_place `{ExternalSort} : M unit :=
  sort_in_place Cmp used_node_id_list with_used_node_ids;;
  in_place (λ c, with_used_node_ids c (unique (used_node_id_list c)));;
  sort_in_place ExternalMemoryNodeSTXXLCompare all_nodes_list with_all_nodes.

Definition PrepareEdges_in_place `{ExternalSort} `{CoordinateCalculation} : M unit :=
  sort_in_place CmpEdgeByStartID all_edges_list with_all_edges;;
  in_place (λ c, with_all_edges c (set_start_coords (all_edges_list c) (all_nodes_list c)));;
  sort_in_place CmpEdgeByTargetID all_edges_list with_all_edges;;
  in_place (λ c, with_all_edges c (compute_weights (all_edges_list c) (all_nodes_list c))).

(** What a stream on [path] leaves on disk. Neither [open] nor the
    constructor of a stream is followed by a test of the stream: one that
    could not be opened has its failbit set, takes no write, and leaves no
    file; an opened one replaces the file. *)
Definition store (path : string) (bs : list byte) (w : world) : world :=
  if can_open w path
  then {| containers := containers w;
          files := <[path := bs]> (files w);
          can_open := can_open w;
          cerr := cerr w |}
  else w.

(** A writer that opens, fills and closes the file at [path]. *)
Definition write_file (path : string) (f : ExtractionContainers → list byte) : M unit :=
  λ w, (Returned (), store path (f (containers w)) w).

(** Writes to the stream that [PrepareData] holds on [path]. The stream is
    closed by [close] or, when an exception unwinds the block, by its
    destructor, so what was written reaches the file either way. *)
Definition write_stream (path : string) (f : ExtractionContainers → ofstream) : M ofstream :=
  λ w, let s := f (containers w) in (Returned s, store path (contents s) w).

Definition print_cerr (line : string) : M unit :=
  λ w, (Returned (),
        {| containers := containers w;
           files := files w;
           can_open := can_open w;
           cerr := cerr w ++ [line] |}).

Definition PrepareData `{ExternalSort} `{CoordinateCalculation} `{Layout}
    (output_file_name restrictions_file_name name_file_name : string) : M unit :=
  try_catch
    (PrepareRestrictions_in_place;;
     write_file restrictions_file_name WriteRestrictions;;
     s0 ← write_stream output_file_name (λ _, write ofstream_open fingerprint);
     PrepareNodes_in_place;;
     s1 ← write_stream output_file_name (λ c, WriteNodes c s0);
     PrepareEdges_in_place;;
     _ ← write_stream output_file_name (λ c, WriteEdges c s1);
     write_file name_file_name WriteNames)
    (λ e, print_cerr ("Caught Execption:" +:+ what e)).

(** ** The merge-join, in general

    Three of the four loops of [PrepareEdges] and [PrepareRestrictions] have
    one shape: a list of records that is updated in place is walked against a
    list that is only read, both sorted by a key; the smaller cursor advances,
    and on equal keys the record is updated and only its cursor advances.
    [merge_update] is that shape, and [update_from] is what it computes on
    sorted lists: every record is updated from the first record of the other
    list that has its key. *)

Section merge_update.
Context {X Y : Type} (cx : comparator X) (cy : comparator Y) (f : Y → X → X).

Fixpoint merge_update (xs : list X) : list Y → list X :=
  fix scan (ys : list Y) : list X :=
    match xs, ys with
    | x :: xs', y :: ys' =>
        if key cx x <? key cy y then x :: merge_update xs' ys
        else if key cy y <? key cx x then scan ys'
        else f y x :: merge_update xs' ys
    | _, _ => xs
    end.

Definition first_match (k : N) (ys : list Y) : option Y :=
  List.find (λ y, key cy y =? k) ys.

Definition update_from (ys : list Y) (x : X) : X :=
  match first_match (key cx x) ys with
  | Some y => f y x
  | None => x
  end.
End merge_update.

(** The node that the write loop of [WriteNodes] pairs with each used id. *)
Fixpoint joined_nodes (ids : list NodeID) : list ExternalMemoryNode → list ExternalMemoryNode :=
  fix scan_nodes (nodes : list ExternalMemoryNode) : list ExternalMemoryNode :=
    match ids, nodes with
    | id :: ids', n :: nodes' =>
        if id <? node_id n then joined_nodes ids' nodes
        else if node_id n <? id then scan_nodes nodes'
        else n :: joined_nodes ids' nodes'
    | _, _ => []
    end.

(** The matched record of a merge-join: the first one with the key. *)
Definition matched_node (id : NodeID) (nodes : list ExternalMemoryNode)
  : option ExternalMemoryNode :=
  first_match ExternalMemoryNodeSTXXLCompare id nodes.

Definition matched_way (id : EdgeID) (ways : list FirstAndLastSegmentOfWay)
  : option FirstAndLastSegmentOfWay :=
  first_match FirstAndLastSegmentOfWayStxxlCompare id ways.

(** What the two merges of [PrepareEdges] do to an edge when the nodes are
    sorted. *)
Definition attach_source (nodes : list ExternalMemoryNode)
  : InternalExtractorEdge → InternalExtractorEdge :=
  update_from CmpEdgeByStartID ExternalMemoryNodeSTXXLCompare
    (λ n e, set_source_coordinate e (lat n) (lon n)) nodes.

Definition attach_weight `{CoordinateCalculation} (nodes : list ExternalMemoryNode)
  : InternalExtractorEdge → InternalExtractorEdge :=
  update_from CmpEdgeByTargetID ExternalMemoryNodeSTXXLCompare assign_weight nodes.

(** The edges and restrictions that the writers let through. *)
Definition used_edges (edges : list InternalExtractorEdge) : list InternalExtractorEdge :=
  List.filter (λ e, (0 <? weight (result e))%Z) edges.

Definition usable_restrictions (rs : list InputRestrictionContainer)
  : list InputRestrictionContainer :=
  List.filter is_usable rs.

(** A stream whose put position is the end of the file. *)
Definition at_end (s : ofstream) : Prop := put s = length (contents s).

Definition stream_at_end (bs : list byte) : ofstream :=
  {| contents := bs; put := length bs |}.


(** ** Instances of the interfaces

    A sort that always succeeds (merge sort, which is stable), a sort with
    bounded storage, a sort that is not stable, a packed layout and a
    distance; the examples below run the pipeline on them. *)

Global Instance ordered_dec {A} (cmp : comparator A) : RelDecision (ordered cmp) :=
  λ a b, decide (key cmp a ≤ key cmp b)%N.

Global Instance ordered_total {A} (cmp : comparator A) : Total (ordered cmp).
Proof. intros a b. unfold ordered. lia. Qed.

Global Instance ordered_trans {A} (cmp : comparator A) : Transitive (ordered cmp).
Proof. intros a b d. unfold ordered. lia. Qed.

Definition merge_stxxl_sort {A} (cmp : comparator A) (l : list A) : outcome (list A) :=
  Returned (merge_sort (ordered cmp) l).

Definition merge_stxxl : ExternalSort.
Proof.
  refine {| stxxl_sort := @merge_stxxl_sort; stxxl_sort_interrupted := λ _ _ l, l |}.
  intros A cmp l l' [= <-]. split.
  - apply merge_sort_Permutation.
  - apply StronglySorted_merge_sort; apply _.
Defined.

(** Storage for [capacity] records: a longer vector exhausts it, and the sort
    gives up before it has moved a record. *)
Definition bounded_stxxl_sort (capacity : nat) {A} (cmp : comparator A) (l : list A)
  : outcome (list A) :=
  if decide (length l ≤ capacity)%nat
  then Returned (merge_sort (ordered cmp) l)
  else Raised {| what := "stxxl: out of external memory" |}.

Definition bounded_stxxl (capacity : nat) : ExternalSort.
Proof.
  refine {| stxxl_sort := @bounded_stxxl_sort capacity;
            stxxl_sort_interrupted := λ _ _ l, l |}.
  intros A cmp l l'. unfold bounded_stxxl_sort.
  destruct (decide (length l ≤ capacity)%nat); [|discriminate].
  intros [= <-]. split.
  - apply merge_sort_Permutation.
  - apply StronglySorted_merge_sort; apply _.
Defined.

(** A sort that leaves records with equal keys in the reverse of the order it
    found them in. *)
Definition reversing_stxxl_sort {A} (cmp : comparator A) (l : list A) : outcome (list A) :=
  Returned (merge_sort (ordered cmp) (reverse l)).

Definition reversing_stxxl : ExternalSort.
Proof.
  refine {| stxxl_sort := @reversing_stxxl_sort; stxxl_sort_interrupted := λ _ _ l, l |}.
  intros A cmp l l' [= <-]. split.
  - rewrite merge_sort_Permutation. apply reverse_Permutation.
  - apply StronglySorted_merge_sort; apply _.
Defined.

Definition bytes_of_int (z : Z) : list byte := bytes_of_unsigned (Z.to_N (z mod 2 ^ 32)).

Definition byte_of_bool (b : bool) : byte := if b then x01 else x00.

Definition packed_layout : Layout :=
  {| fingerprint := [x4f; x53; x52; x4d; x00; x00; x00; x01];
     sizeof_ExternalMemoryNode := 14;
     bytes_of_ExternalMemoryNode := λ n,
       bytes_of_int (lat n) ++ bytes_of_int (lon n) ++ bytes_of_unsigned (node_id n)
       ++ [byte_of_bool (bollard n); byte_of_bool (traffic_light n)];
     length_bytes_of_ExternalMemoryNode := λ _, eq_refl;
     sizeof_NodeBasedEdge := 22;
     bytes_of_NodeBasedEdge := λ e,
       bytes_of_unsigned (source e) ++ bytes_of_unsigned (target e)
       ++ bytes_of_unsigned (name_id e) ++ bytes_of_int (weight e)
       ++ [byte_of_bool (forward e); byte_of_bool (backward e);
           byte_of_bool (roundabout e); byte_of_bool (in_tiny_cc e);
           byte_of_bool (access_restricted e); byte_of_N (travel_mode e)];
     length_bytes_of_NodeBasedEdge := λ _, eq_refl;
     sizeof_TurnRestriction := 25;
     bytes_of_TurnRestriction := λ r,
       bytes_of_unsigned (way (via r)) ++ bytes_of_unsigned (node (via r))
       ++ bytes_of_unsigned (way (from r)) ++ bytes_of_unsigned (node (from r))
       ++ bytes_of_unsigned (way (to r)) ++ bytes_of_unsigned (node (to r))
       ++ [byte_of_bool (is_only r)];
     length_bytes_of_TurnRestriction := λ _, eq_refl;
     bytes_of_RangeTable := λ t,
       bytes_of_unsigned (N.of_nat (length (block_offsets t)))
       ++ mjoin (bytes_of_unsigned <$> block_offsets t)
       ++ mjoin ((λ block, byte_of_N <$> block) <$> diff_blocks t) |}.

(** A distance that ignores the coordinates. *)
Definition constant_distance (d : float) : CoordinateCalculation := λ _ _ _ _, d.

(** ** A small map

    Four nodes, one of them recorded twice; used ids with repetitions and with
    an id (7) that no node has; edges of every weight type, one with a target
    and one with a source that no node has; two ways and four restrictions;
    three names, the last one 300 bytes long. *)

Definition example_node (id : N) (la lo : Z) : ExternalMemoryNode :=
  {| lat := la; lon := lo; node_id := id; bollard := false; traffic_light := false |}.

Definition example_edge (s t : N) (ty : WeightType) (v : float) : InternalExtractorEdge :=
  {| result :=
       {| source := s; target := t; name_id := 1; weight := 0;
          forward := true; backward := true; roundabout := false;
          in_tiny_cc := false; access_restricted := false; travel_mode := 1 |};
     weight_data := {| speed_or_duration := v; type := ty |};
     source_coordinate := {| coord_lat := INT_MIN; coord_lon := INT_MIN |} |}.

Definition example_restriction (from_way via_node to_way : N) : InputRestrictionContainer :=
  {| restriction :=
       {| via := {| way := SPECIAL_NODEID; node := via_node |};
          from := {| way := from_way; node := SPECIAL_NODEID |};
          to := {| way := to_way; node := SPECIAL_NODEID |};
          is_only := false |} |}.

Definition way_10 : FirstAndLastSegmentOfWay :=
  {| way_id := 10;
     first_segment_source_id := 1; first_segment_target_id := 2;
     last_segment_source_id := 3; last_segment_target_id := 4 |}.

Definition way_11 : FirstAndLastSegmentOfWay :=
  {| way_id := 11;
     first_segment_source_id := 4; first_segment_target_id := 8;
     last_segment_source_id := 9; last_segment_target_id := 12 |}.

Definition example_containers : ExtractionContainers :=
  {| used_node_id_list := [5; 3; 5; 9; 7; 3];
     all_nodes_list :=
       [ example_node 9 1000000 0; example_node 3 0 0; example_node 4 0 500;
         example_node 3 0 0; example_node 5 2000000 0 ];
     all_edges_list :=
       [ example_edge 3 5 SPEED 36; example_edge 5 9 EDGE_DURATION 5;
         example_edge 3 99 SPEED 36; example_edge 4 3 INVALID 0;
         example_edge 98 4 WAY_DURATION 7 ];
     name_list := [ []; [x4d; x61; x69; x6e]; replicate 300 x61 ];
     restrictions_list :=
       [ example_restriction 77 1 10; example_restriction 10 4 11;
         example_restriction 10 1 11; example_restriction 10 99 11 ];
     way_start_end_id_list := [ way_11; way_10 ] |}.

(** Two nodes and one edge between them whose duration is 10^10 seconds. *)
Definition long_duration_containers : ExtractionContainers :=
  {| used_node_id_list := [1; 2];
     all_nodes_list := [ example_node 1 0 0; example_node 2 1000000 0 ];
     all_edges_list := [ example_edge 1 2 EDGE_DURATION 1e10 ];
     name_list := [ [] ];
     restrictions_list := [];
     way_start_end_id_list := [] |}.

(** The value a call returns, for calls that return. *)
Definition returned {A} (default : A) (o : outcome A) : A :=
  match o with
  | Returned a => a
  | Raised _ => default
  end.

(** The example map with every edge appended twice: ten edges, more than any
    other vector holds. *)
Definition many_edges_world : world :=
  {| containers :=
       with_all_edges example_containers
         (all_edges_list example_containers ++ all_edges_list example_containers);
     files := ∅;
     can_open := λ _, true;
     cerr := [] |}.

(** The example map before [PrepareData], with nothing on disk and every path
    writable. *)
Definition example_world : world :=
  {| containers := example_containers; files := ∅; can_open := λ _, true; cerr := [] |}.

(** ** Further notions for the statements below *)

(** The records [WriteNodes] writes on sorted inputs: for every used id, in
    order, the first node with that id, if there is one. *)
Definition written_nodes (ids : list NodeID) (nodes : list ExternalMemoryNode)
  : list ExternalMemoryNode :=
  omap (λ id, matched_node id nodes) ids.

(** What [PrepareEdges] makes of one edge when the nodes are sorted. *)
Definition prepare_edge `{CoordinateCalculation} (nodes : list ExternalMemoryNode)
    (e : InternalExtractorEdge) : InternalExtractorEdge :=
  attach_weight nodes (attach_source nodes e).

(** An edge as the extraction callbacks append it: no weight yet, the source
    coordinate at its sentinel. *)
Definition is_fresh (e : InternalExtractorEdge) : Prop :=
  weight (result e) = 0%Z
  ∧ source_coordinate e = {| coord_lat := INT_MIN; coord_lon := INT_MIN |}.

(** A node whose coordinate is not mistaken for the sentinel of an unset
    source coordinate. *)
Definition has_coordinate (n : ExternalMemoryNode) : Prop :=
  lat n ≠ INT_MIN ∧ lon n ≠ INT_MIN.

(** The fields of an edge that [PrepareEdges] never assigns. *)
Definition edge_input (e : InternalExtractorEdge) :=
  (source (result e), target (result e), name_id (result e),
   (forward (result e), backward (result e), roundabout (result e)),
   (in_tiny_cc (result e), access_restricted (result e), travel_mode (result e)),
   weight_data e).

(** The fields of a restriction that [PrepareRestrictions] never assigns. *)
Definition restriction_input (r : InputRestrictionContainer) :=
  (way (from (restriction r)), via (restriction r), way (to (restriction r)),
   is_only (restriction r)).

(** What [PrepareRestrictions] makes of one restriction, given the sorted
    ways. *)
Definition resolve_restriction (ways : list FirstAndLastSegmentOfWay)
    (r : InputRestrictionContainer) : InputRestrictionContainer :=
  update_from CmpRestrictionContainerByTo FirstAndLastSegmentOfWayStxxlCompare fix_end ways
    (update_from CmpRestrictionContainerByFrom FirstAndLastSegmentOfWayStxxlCompare
       fix_start ways r).

(** [r] has its [from.node] (its [to.node]) from the way record [w]: the
    neighbour of [via.node] on the end of the way that [via.node] is on. *)
Definition from_resolved_by (w : FirstAndLastSegmentOfWay) (r : InputRestrictionContainer)
  : Prop :=
  way_id w = way (from (restriction r))
  ∧ ((node (via (restriction r)) = first_segment_source_id w
      ∧ node (from (restriction r)) = first_segment_target_id w)
     ∨ (node (via (restriction r)) = last_segment_target_id w
        ∧ node (from (restriction r)) = last_segment_source_id w)).

Definition to_resolved_by (w : FirstAndLastSegmentOfWay) (r : InputRestrictionContainer)
  : Prop :=
  way_id w = way (to (restriction r))
  ∧ ((node (via (restriction r)) = first_segment_source_id w
      ∧ node (to (restriction r)) = first_segment_target_id w)
     ∨ (node (via (restriction r)) = last_segment_target_id w
        ∧ node (to (restriction r)) = last_segment_source_id w)).

(** A restriction as the extraction callbacks append it: both node fields at
    the sentinel. *)
Definition is_unresolved (r : InputRestrictionContainer) : Prop :=
  node (from (restriction r)) = SPECIAL_NODEID ∧ node (to (restriction r)) = SPECIAL_NODEID.

(** * Properties *)

(** ** Streams and the representation of [unsigned] *)

Lemma write_at_end s bs :
  at_end s → write s bs = {| contents := contents s ++ bs; put := length (contents s ++ bs) |}.
Proof.
  unfold at_end, write. intros ->.
  rewrite firstn_all, Nat.sub_diag, drop_ge, app_nil_r, length_app by lia. reflexivity.
Qed.

Lemma at_end_write s bs : at_end s → at_end (write s bs).
Proof. intros H. rewrite (write_at_end _ _ H). reflexivity. Qed.

Lemma at_end_open : at_end ofstream_open.
Proof. reflexivity. Qed.

(** Overwriting a field in the middle of the file. *)
Lemma write_patch (pre old new post : list byte) :
  length old = length new →
  contents (write {| contents := pre ++ old ++ post; put := length pre |} new)
  = pre ++ new ++ post.
Proof.
  intros Hlen. unfold write. cbn [contents put].
  rewrite take_app_length.
  replace (length pre - length (pre ++ old ++ post))%nat with 0%nat
    by (rewrite length_app; lia).
  cbn [replicate app]. f_equal. f_equal.
  rewrite <- Hlen, drop_app_add. apply drop_app_length.
Qed.

Lemma write_stream_at_end bs x :
  write (stream_at_end bs) x = stream_at_end (bs ++ x).
Proof. apply write_at_end. reflexivity. Qed.

Lemma at_end_stream_at_end s : at_end s → s = stream_at_end (contents s).
Proof. destruct s as [cs p]. unfold at_end, stream_at_end. simpl. by intros ->. Qed.

(** Back-patching: seek to a field, overwrite it, seek back to the end. *)
Lemma backpatch (pre old new post : list byte) :
  length old = length new →
  seekp (write (seekp (stream_at_end (pre ++ old ++ post)) (length pre)) new)
        (length (pre ++ old ++ post))
  = stream_at_end (pre ++ new ++ post).
Proof.
  intros Hlen. unfold seekp, stream_at_end. cbn [contents put].
  rewrite (write_patch pre old new post Hlen).
  f_equal. rewrite !length_app. lia.
Qed.

Lemma byte_of_N_to_N n : Byte.to_N (byte_of_N n) = n mod 256.
Proof.
  unfold byte_of_N.
  destruct (Byte.of_N (n mod 256)) as [b|] eqn:E.
  - apply Byte.to_of_N in E. exact E.
  - apply Byte.of_N_None_iff in E.
    pose proof (N.mod_upper_bound n 256). lia.
Qed.

Lemma unsigned_of_bytes_of_unsigned n :
  unsigned_of_bytes (bytes_of_unsigned n) = n mod 2 ^ 32.
Proof.
  unfold unsigned_of_bytes, bytes_of_unsigned. simpl foldr.
  rewrite !byte_of_N_to_N.
  change (2 ^ 32) with (256 * (256 * (256 * 256))).
  change 65536 with (256 * 256). change 16777216 with (256 * 256 * 256).
  rewrite <- !N.Div0.div_div.
  rewrite !(N.Div0.mod_mul_r _ 256). lia.
Qed.

Lemma length_bytes_of_unsigned n : length (bytes_of_unsigned n) = 4%nat.
Proof. reflexivity. Qed.

Lemma read_unsigned_app pre n post :
  read_unsigned (pre ++ bytes_of_unsigned n ++ post) (length pre) = n mod 2 ^ 32.
Proof.
  unfold read_unsigned. rewrite drop_app_length.
  rewrite (take_app_length' _ _ 4) by reflexivity.
  apply unsigned_of_bytes_of_unsigned.
Qed.

(** ** Comparators *)

Lemma ordered_less {A} (cmp : comparator A) a b :
  ordered cmp a b ↔ less cmp b a = false.
Proof. unfold ordered, less. rewrite N.ltb_ge. reflexivity. Qed.

(** ** The merge-join on sorted lists *)

Section merge_update_sorted.
Context {X Y : Type} (cx : comparator X) (cy : comparator Y) (f : Y → X → X).

Lemma merge_update_nil_r xs : merge_update cx cy f xs [] = xs.
Proof. destruct xs; reflexivity. Qed.

Lemma merge_update_cons x xs y ys :
  merge_update cx cy f (x :: xs) (y :: ys)
  = if key cx x <? key cy y then x :: merge_update cx cy f xs (y :: ys)
    else if key cy y <? key cx x then merge_update cx cy f (x :: xs) ys
    else f y x :: merge_update cx cy f xs (y :: ys).
Proof. reflexivity. Qed.

Lemma first_match_above k ys :
  Forall (λ y, k < key cy y) ys → first_match cy k ys = None.
Proof.
  induction 1 as [|y ys Hy _ IH]; [reflexivity|].
  unfold first_match in *. simpl.
  destruct (N.eqb_spec (key cy y) k); [lia | exact IH].
Qed.

Lemma first_match_skip k y ys :
  key cy y ≠ k → first_match cy k (y :: ys) = first_match cy k ys.
Proof.
  intros Hne. unfold first_match. simpl.
  destruct (N.eqb_spec (key cy y) k); [contradiction | reflexivity].
Qed.

Lemma first_match_head k y ys :
  key cy y = k → first_match cy k (y :: ys) = Some y.
Proof.
  intros Heq. unfold first_match. simpl.
  destruct (N.eqb_spec (key cy y) k); [reflexivity | contradiction].
Qed.

Lemma first_match_Some k ys y :
  first_match cy k ys = Some y → y ∈ ys ∧ key cy y = k.
Proof.
  unfold first_match. intros H. apply find_some in H as [Hin Hk].
  split; [by apply list_elem_of_In | by apply N.eqb_eq].
Qed.

Lemma first_match_None k ys :
  first_match cy k ys = None ↔ k ∉ key cy <$> ys.
Proof.
  unfold first_match. induction ys as [|y ys IH]; simpl.
  - split; [intros _; apply not_elem_of_nil | reflexivity].
  - rewrite not_elem_of_cons. destruct (N.eqb_spec (key cy y) k) as [->|Hne].
    + split; [discriminate | intros [[] _]; reflexivity].
    + rewrite IH. split; [intros ?; split; [congruence | assumption] | intros [_ ?]; assumption].
Qed.

Theorem merge_update_sorted xs ys :
  StronglySorted (ordered cx) xs →
  StronglySorted (ordered cy) ys →
  merge_update cx cy f xs ys = update_from cx cy f ys <$> xs.
Proof.
  intros Hxs. revert ys.
  induction Hxs as [|x xs Hxs IHx Hx]; intros ys Hys.
  { by destruct ys. }
  induction Hys as [|y ys Hys IHy Hy].
  { rewrite merge_update_nil_r. rewrite <- (list_fmap_id (x :: xs)) at 1.
    apply list_fmap_ext. intros; reflexivity. }
  rewrite merge_update_cons.
  destruct (N.ltb_spec (key cx x) (key cy y)) as [Hlt|Hge].
  - (* the record's key is below every remaining key: no match *)
    rewrite IHx by (by constructor).
    rewrite fmap_cons. f_equal.
    unfold update_from. rewrite first_match_above; [reflexivity|].
    constructor; [exact Hlt|].
    eapply Forall_impl; [exact Hy|]. unfold ordered. intros; simpl in *; lia.
  - destruct (N.ltb_spec (key cy y) (key cx x)) as [Hlt'|Hge'].
    + (* the head of the read list is below every remaining record *)
      rewrite IHy.
      apply Forall_fmap_ext_1.
      constructor.
      * unfold update_from. rewrite first_match_skip by lia. reflexivity.
      * eapply Forall_impl; [exact Hx|]. unfold ordered. intros x' Hx'; simpl in *.
        unfold update_from. rewrite first_match_skip by lia. reflexivity.
    + rewrite IHx by (by constructor).
      rewrite fmap_cons. f_equal.
      unfold update_from. rewrite first_match_head by lia. reflexivity.
Qed.

(** Without any order on the lists: a record is left as it is or updated from
    a record of the other list that has its key. *)
Lemma merge_update_pointwise xs ys :
  Forall2 (λ x x', x' = x ∨ ∃ y, y ∈ ys ∧ key cy y = key cx x ∧ x' = f y x)
          xs (merge_update cx cy f xs ys).
Proof.
  revert ys. induction xs as [|x xs IHx]; intros ys.
  { destruct ys; constructor. }
  induction ys as [|y ys IHy].
  { rewrite merge_update_nil_r. apply Forall_Forall2_diag, Forall_forall. by left. }
  rewrite merge_update_cons.
  destruct (N.ltb_spec (key cx x) (key cy y)) as [Hlt|Hge].
  - constructor; [by left | apply IHx].
  - destruct (N.ltb_spec (key cy y) (key cx x)) as [Hlt'|Hge'].
    + eapply Forall2_impl; [exact IHy|].
      intros x0 x' [->|(y0 & Hy0 & Hk & ->)]; [by left|].
      right. exists y0. split; [by right | done].
    + constructor; [|apply IHx].
      right. exists y. split; [by left|]. split; [lia | reflexivity].
Qed.

(** Position by position. *)
Corollary merge_update_lookup xs ys i x :
  StronglySorted (ordered cx) xs →
  StronglySorted (ordered cy) ys →
  xs !! i = Some x →
  merge_update cx cy f xs ys !! i = Some (update_from cx cy f ys x).
Proof.
  intros Hxs Hys Hi. rewrite merge_update_sorted by assumption.
  rewrite list_lookup_fmap, Hi. reflexivity.
Qed.
End merge_update_sorted.

(** ** The loops of the code are merge-joins *)

Lemma set_start_coords_cons e edges n nodes :
  set_start_coords (e :: edges) (n :: nodes)
  = if source (result e) <? node_id n then e :: set_start_coords edges (n :: nodes)
    else if node_id n <? source (result e) then set_start_coords (e :: edges) nodes
    else set_source_coordinate e (lat n) (lon n) :: set_start_coords edges (n :: nodes).
Proof. reflexivity. Qed.

Lemma set_start_coords_merge edges nodes :
  set_start_coords edges nodes
  = merge_update CmpEdgeByStartID ExternalMemoryNodeSTXXLCompare
      (λ n e, set_source_coordinate e (lat n) (lon n)) edges nodes.
Proof.
  revert nodes. induction edges as [|e edges IH]; intros nodes.
  { by destruct nodes. }
  induction nodes as [|n nodes IHn]; [reflexivity|].
  rewrite set_start_coords_cons, merge_update_cons, IH, IHn. reflexivity.
Qed.

Lemma compute_weights_cons `{CoordinateCalculation} e edges n nodes :
  compute_weights (e :: edges) (n :: nodes)
  = if target (result e) <? node_id n then e :: compute_weights edges (n :: nodes)
    else if node_id n <? target (result e) then compute_weights (e :: edges) nodes
    else assign_weight n e :: compute_weights edges (n :: nodes).
Proof. reflexivity. Qed.

Lemma compute_weights_merge `{CoordinateCalculation} edges nodes :
  compute_weights edges nodes
  = merge_update CmpEdgeByTargetID ExternalMemoryNodeSTXXLCompare assign_weight edges nodes.
Proof.
  revert nodes. induction edges as [|e edges IH]; intros nodes.
  { by destruct nodes. }
  induction nodes as [|n nodes IHn]; [reflexivity|].
  rewrite compute_weights_cons, merge_update_cons, IH, IHn. reflexivity.
Qed.

Lemma fix_restriction_starts_cons r rs w ways :
  fix_restriction_starts (r :: rs) (w :: ways)
  = if way_id w <? way (from (restriction r)) then fix_restriction_starts (r :: rs) ways
    else if way (from (restriction r)) <? way_id w
    then r :: fix_restriction_starts rs (w :: ways)
    else fix_start w r :: fix_restriction_starts rs (w :: ways).
Proof. reflexivity. Qed.

(** The restriction loops test the two strict inequalities in the other
    order, which selects the same branch. *)
Lemma fix_restriction_starts_merge rs ways :
  fix_restriction_starts rs ways
  = merge_update CmpRestrictionContainerByFrom FirstAndLastSegmentOfWayStxxlCompare
      fix_start rs ways.
Proof.
  revert ways. induction rs as [|r rs IH]; intros ways.
  { by destruct ways. }
  induction ways as [|w ways IHw]; [reflexivity|].
  rewrite fix_restriction_starts_cons, merge_update_cons, IH, IHw. simpl.
  destruct (N.ltb_spec (way_id w) (way (from (restriction r))));
    destruct (N.ltb_spec (way (from (restriction r))) (way_id w)); try reflexivity; lia.
Qed.

Lemma fix_restriction_ends_cons r rs w ways :
  fix_restriction_ends (r :: rs) (w :: ways)
  = if way_id w <? way (to (restriction r)) then fix_restriction_ends (r :: rs) ways
    else if way (to (restriction r)) <? way_id w
    then r :: fix_restriction_ends rs (w :: ways)
    else fix_end w r :: fix_restriction_ends rs (w :: ways).
Proof. reflexivity. Qed.

Lemma fix_restriction_ends_merge rs ways :
  fix_restriction_ends rs ways
  = merge_update CmpRestrictionContainerByTo FirstAndLastSegmentOfWayStxxlCompare
      fix_end rs ways.
Proof.
  revert ways. induction rs as [|r rs IH]; intros ways.
  { by destruct ways. }
  induction ways as [|w ways IHw]; [reflexivity|].
  rewrite fix_restriction_ends_cons, merge_update_cons, IH, IHw. simpl.
  destruct (N.ltb_spec (way_id w) (way (to (restriction r))));
    destruct (N.ltb_spec (way (to (restriction r))) (way_id w)); try reflexivity; lia.
Qed.

(** ** PrepareNodes *)

Lemma elem_of_unique_from x l y : y ∈ unique_from x l ↔ y ∈ x :: l.
Proof.
  revert x. induction l as [|z l IH]; intros x; simpl; [reflexivity|].
  destruct (N.eqb_spec x z) as [->|Hne].
  - rewrite IH, !elem_of_cons. tauto.
  - rewrite elem_of_cons, IH, !elem_of_cons. tauto.
Qed.

Lemma elem_of_unique l y : y ∈ unique l ↔ y ∈ l.
Proof. destruct l; [reflexivity | apply elem_of_unique_from]. Qed.

Lemma unique_from_sorted x l :
  StronglySorted N.le (x :: l) → StronglySorted N.lt (unique_from x l).
Proof.
  revert x. induction l as [|z l IH]; intros x Hs; simpl.
  { repeat constructor. }
  apply StronglySorted_inv in Hs as [Hs Hx].
  destruct (N.eqb_spec x z) as [->|Hne].
  - apply IH. apply StronglySorted_inv in Hs as [Hs Hz]. by constructor.
  - constructor; [by apply IH|].
    apply Forall_forall. intros y Hy. apply elem_of_unique_from in Hy.
    apply Forall_inv in Hx as Hxz.
    apply StronglySorted_inv in Hs as [_ Hz]. rewrite Forall_forall in Hz.
    apply elem_of_cons in Hy as [->|Hy]; [lia|].
    specialize (Hz y Hy). lia.
Qed.

Lemma unique_sorted l : StronglySorted N.le l → StronglySorted N.lt (unique l).
Proof. destruct l; [constructor | apply unique_from_sorted]. Qed.

Lemma StronglySorted_lt_NoDup (l : list N) : StronglySorted N.lt l → NoDup l.
Proof.
  induction 1 as [|x l _ IH Hx]; constructor; [|exact IH].
  intros Hin. rewrite Forall_forall in Hx. specialize (Hx x Hin). lia.
Qed.

(** What [PrepareNodes] establishes. *)
Lemma PrepareNodes_spec `{ExternalSort} c c' :
  PrepareNodes c = Returned c' →
  StronglySorted N.lt (used_node_id_list c')
  ∧ (∀ id, id ∈ used_node_id_list c' ↔ id ∈ used_node_id_list c)
  ∧ StronglySorted (ordered ExternalMemoryNodeSTXXLCompare) (all_nodes_list c')
  ∧ all_nodes_list c' ≡ₚ all_nodes_list c
  ∧ all_edges_list c' = all_edges_list c.
Proof.
  unfold PrepareNodes. intros Hp.
  destruct (stxxl_sort Cmp (used_node_id_list c)) as [used|] eqn:Hused; [|discriminate].
  cbn in Hp.
  destruct (stxxl_sort ExternalMemoryNodeSTXXLCompare (all_nodes_list c)) as [nodes|] eqn:Hn;
    [|discriminate].
  cbn in Hp. injection Hp as <-. cbn.
  apply stxxl_sort_spec in Hused as [Hperm Hsorted].
  apply stxxl_sort_spec in Hn as [Hpermn Hsortedn].
  split; [by apply unique_sorted|].
  split; [|done].
  intros id. rewrite elem_of_unique. by rewrite Hperm.
Qed.


(** ** WriteNodes *)

Lemma joined_nodes_cons id ids n nodes :
  joined_nodes (id :: ids) (n :: nodes)
  = if id <? node_id n then joined_nodes ids (n :: nodes)
    else if node_id n <? id then joined_nodes (id :: ids) nodes
    else n :: joined_nodes ids nodes.
Proof. reflexivity. Qed.

Lemma write_used_nodes_cons `{Layout} id ids n nodes st :
  write_used_nodes (id :: ids) (n :: nodes) st
  = if id <? node_id n then write_used_nodes ids (n :: nodes) st
    else if node_id n <? id then write_used_nodes (id :: ids) nodes st
    else write_used_nodes ids nodes
           (write (fst st) (bytes_of_ExternalMemoryNode n), incr_unsigned (snd st)).
Proof. reflexivity. Qed.

(** [k] increments of a counter. *)
Lemma incr_unsigned_add c k :
  incr_unsigned ((c + k) mod 2 ^ 32) = (c + (k + 1)) mod 2 ^ 32.
Proof.
  unfold incr_unsigned. rewrite N.Div0.add_mod_idemp_l. f_equal. lia.
Qed.

(** The loop appends the matched nodes to the stream and counts them. *)
Lemma write_used_nodes_joined `{Layout} ids nodes s c k :
  at_end s →
  write_used_nodes ids nodes (s, (c + k) mod 2 ^ 32)
  = (write s (mjoin (bytes_of_ExternalMemoryNode <$> joined_nodes ids nodes)),
     (c + (k + N.of_nat (length (joined_nodes ids nodes)))) mod 2 ^ 32).
Proof.
  assert (Hnil : ∀ s', at_end s' → s' = write s' []).
  { intros [cs p] Hs'. rewrite write_at_end by done. unfold at_end in Hs'. simpl in *.
    rewrite app_nil_r. by subst. }
  revert nodes s k. induction ids as [|id ids IH]; intros nodes s k Hs.
  { destruct nodes; simpl; rewrite N.add_0_r; f_equal; by apply Hnil. }
  induction nodes as [|n nodes IHn].
  { simpl. rewrite N.add_0_r. f_equal. by apply Hnil. }
  rewrite write_used_nodes_cons, joined_nodes_cons.
  destruct (id <? node_id n); [by apply IH|].
  destruct (node_id n <? id); [exact IHn|].
  cbn [fst snd]. rewrite incr_unsigned_add.
  rewrite IH by (by apply at_end_write).
  cbn [length fmap list_fmap mjoin list_join].
  f_equal.
  - rewrite !write_at_end by (try apply at_end_write; done).
    cbn [contents]. rewrite !app_assoc. reflexivity.
  - f_equal. lia.
Qed.

Lemma filter_ext_in {A} (P Q : A → Prop) `{!∀ x, Decision (P x), !∀ x, Decision (Q x)}
    (l : list A) :
  Forall (λ x, P x ↔ Q x) l → filter P l = filter Q l.
Proof.
  induction 1 as [|x l Hx _ IH]; [reflexivity|].
  destruct (decide (P x)) as [HP|HP].
  - rewrite !filter_cons_True by tauto. by rewrite IH.
  - rewrite !filter_cons_False by tauto. exact IH.
Qed.

(** On sorted inputs the loop pairs exactly the used ids that occur among the
    nodes, each once. *)
Lemma joined_nodes_ids ids nodes :
  StronglySorted N.lt ids →
  StronglySorted (ordered ExternalMemoryNodeSTXXLCompare) nodes →
  node_id <$> joined_nodes ids nodes = filter (λ id, id ∈ node_id <$> nodes) ids.
Proof.
  intros Hids. revert nodes.
  induction Hids as [|id ids Hids IH Hid]; intros nodes Hnodes.
  { by destruct nodes. }
  induction Hnodes as [|n nodes Hnodes IHn Hn].
  { simpl. rewrite filter_cons_False by apply not_elem_of_nil.
    clear. induction ids as [|x ids IH]; [reflexivity|].
    rewrite filter_cons_False by apply not_elem_of_nil. exact IH. }
  rewrite joined_nodes_cons.
  assert (Hn' : ∀ x, x ∈ node_id <$> nodes → node_id n ≤ x).
  { intros x Hx. apply list_elem_of_fmap in Hx as (m & -> & Hm).
    rewrite Forall_forall in Hn. exact (Hn m Hm). }
  rewrite Forall_forall in Hid.
  destruct (N.ltb_spec id (node_id n)) as [Hlt|Hge].
  - rewrite IH by (by constructor).
    rewrite filter_cons_False; [reflexivity|].
    rewrite fmap_cons, elem_of_cons. intros [->|Hin]; [lia|].
    specialize (Hn' _ Hin). lia.
  - destruct (N.ltb_spec (node_id n) id) as [Hlt'|Hge'].
    + rewrite IHn. apply filter_ext_in.
      apply Forall_forall. intros x Hx. rewrite fmap_cons, elem_of_cons.
      assert (id ≤ x) by (apply elem_of_cons in Hx as [->|Hx]; [lia | specialize (Hid x Hx); lia]).
      split; [tauto | intros [->|?]; [lia | assumption]].
    + assert (id = node_id n) as Heq by lia.
      rewrite fmap_cons, IH by assumption.
      rewrite filter_cons_True by (rewrite fmap_cons, Heq; left).
      f_equal; [by symmetry|].
      apply filter_ext_in. apply Forall_forall. intros x Hx.
      rewrite fmap_cons, elem_of_cons. specialize (Hid x Hx).
      split; [tauto | intros [->|?]; [lia | assumption]].
Qed.

(** The number of pairs is the cardinality of the intersection. *)
Lemma length_joined_nodes ids nodes :
  StronglySorted N.lt ids →
  StronglySorted (ordered ExternalMemoryNodeSTXXLCompare) nodes →
  length (joined_nodes ids nodes)
  = size ((list_to_set ids : gset N) ∩ list_to_set (node_id <$> nodes)).
Proof.
  intros Hids Hnodes.
  rewrite <- (length_fmap node_id), joined_nodes_ids by assumption.
  rewrite <- (size_list_to_set (C := gset N)).
  2: { apply NoDup_filter. by apply StronglySorted_lt_NoDup. }
  f_equal. apply set_eq. intros x.
  rewrite elem_of_list_to_set, list_elem_of_filter, elem_of_intersection,
    !elem_of_list_to_set. tauto.
Qed.

(** The main file after [WriteNodes], byte for byte: the put position is at
    its end again. *)
Lemma WriteNodes_stream `{Layout} c :
  let matched := joined_nodes (used_node_id_list c) (all_nodes_list c) in
  WriteNodes c (write ofstream_open fingerprint)
  = stream_at_end
      (fingerprint ++ bytes_of_unsigned (N.of_nat (length matched) mod 2 ^ 32)
         ++ mjoin (bytes_of_ExternalMemoryNode <$> matched)).
Proof.
  intros matched. unfold WriteNodes.
  pose proof (write_used_nodes_joined (used_node_id_list c) (all_nodes_list c)
                (write (write ofstream_open fingerprint) (bytes_of_unsigned 0)) 0 0) as Hloop.
  change ((0 + 0) mod 2 ^ 32) with 0 in Hloop.
  rewrite Hloop by (apply at_end_write, at_end_write, at_end_open).
  fold matched. change ofstream_open with (stream_at_end []).
  rewrite !write_stream_at_end. cbn [app tellp].
  rewrite <- !app_assoc. unfold sizeof_FingerPrint. cbn [Nat.add].
  change (put (stream_at_end ?l)) with (length l).
  rewrite N.add_0_l.
  apply (backpatch fingerprint (bytes_of_unsigned 0)). reflexivity.
Qed.

(** ** The node count *)

(** C3: after [PrepareNodes] and [WriteNodes] the node count field of the main
    file, the [unsigned] that follows the fingerprint, is the cardinality of
    the intersection of the set of used node ids with the set of ids of the
    nodes, whatever duplicates either list holds, provided that cardinality is
    a value of the 32-bit field. *)
Theorem WriteNodes_node_count `{ExternalSort} `{Layout} (c c' : ExtractionContainers) :
  PrepareNodes c = Returned c' →
  let used_nodes : gset N :=
    list_to_set (used_node_id_list c) ∩ list_to_set (node_id <$> all_nodes_list c) in
  N.of_nat (size used_nodes) < 2 ^ 32 →
  read_unsigned (contents (WriteNodes c' (write ofstream_open fingerprint)))
                sizeof_FingerPrint
  = N.of_nat (size used_nodes).
Proof.
  intros Hprep used_nodes Hsize.
  apply PrepareNodes_spec in Hprep as (Hused & Hmem & Hnodes & Hperm & _).
  rewrite WriteNodes_stream. cbn [contents stream_at_end].
  unfold sizeof_FingerPrint. rewrite read_unsigned_app.
  rewrite length_joined_nodes by assumption.
  assert (Heq : (list_to_set (used_node_id_list c') : gset N)
                  ∩ list_to_set (node_id <$> all_nodes_list c') = used_nodes).
  { subst used_nodes. f_equal.
    - apply set_eq. intros x. rewrite !elem_of_list_to_set. apply Hmem.
    - by rewrite Hperm. }
  rewrite Heq, N.Div0.mod_mod. apply N.mod_small. exact Hsize.
Qed.

Lemma WriteNodes_node_count_witness :
  read_unsigned
    (contents
       (@WriteNodes packed_layout
          (returned example_containers (@PrepareNodes merge_stxxl example_containers))
          (write ofstream_open (@fingerprint packed_layout))))
    (@sizeof_FingerPrint packed_layout)
  = 3.
Proof.
  apply (@WriteNodes_node_count merge_stxxl packed_layout example_containers).
  - vm_compute. reflexivity.
  - vm_compute. reflexivity.
Defined.

(** ** Pass A of the restriction resolver *)

Lemma fix_start_from_way w r :
  way (from (restriction (fix_start w r))) = way (from (restriction r)).
Proof.
  unfold fix_start.
  destruct (first_segment_source_id w =? _); [reflexivity|].
  destruct (last_segment_target_id w =? _); reflexivity.
Qed.

Lemma fix_start_via w r :
  via (restriction (fix_start w r)) = via (restriction r).
Proof.
  unfold fix_start.
  destruct (first_segment_source_id w =? _); [reflexivity|].
  destruct (last_segment_target_id w =? _); reflexivity.
Qed.

Lemma fix_start_idempotent w r : fix_start w (fix_start w r) = fix_start w r.
Proof.
  unfold fix_start at 1. rewrite fix_start_via.
  unfold fix_start.
  destruct (first_segment_source_id w =? _); [reflexivity|].
  destruct (last_segment_target_id w =? _); reflexivity.
Qed.

(** What Pass A computes: the two sorts, then every restriction is fixed
    from the first way record that has its [from.way], if there is one. *)
Lemma PassA_spec `{ExternalSort} c c' :
  PassA c = Returned c' →
  ∃ by_from,
    stxxl_sort FirstAndLastSegmentOfWayStxxlCompare (way_start_end_id_list c)
      = Returned (way_start_end_id_list c')
    ∧ stxxl_sort CmpRestrictionContainerByFrom (restrictions_list c) = Returned by_from
    ∧ restrictions_list c'
      = update_from CmpRestrictionContainerByFrom FirstAndLastSegmentOfWayStxxlCompare
          fix_start (way_start_end_id_list c') <$> by_from.
Proof.
  unfold PassA. intros Hp.
  destruct (stxxl_sort FirstAndLastSegmentOfWayStxxlCompare (way_start_end_id_list c))
    as [ways|] eqn:Hways; [|discriminate].
  cbn in Hp.
  destruct (stxxl_sort CmpRestrictionContainerByFrom (restrictions_list c))
    as [by_from|] eqn:Hrs; [|discriminate].
  cbn in Hp. injection Hp as <-. cbn.
  exists by_from. split; [reflexivity|]. split; [reflexivity|].
  apply stxxl_sort_spec in Hways as [_ Hways].
  apply stxxl_sort_spec in Hrs as [_ Hrs].
  rewrite fix_restriction_starts_merge. by apply merge_update_sorted.
Qed.

(** C4: in Pass A, a restriction whose [from.way] is the way id of the
    matched way record leaves with [from.node = first_segment_target_id] when
    its [via.node] is the record's [first_segment_source_id], else with
    [from.node = last_segment_source_id] when its [via.node] is the record's
    [last_segment_target_id], and is left as it is otherwise (so a
    [from.node] that is [SPECIAL_NODEID] stays so); no other field of it
    changes. Restrictions are taken in the order the sort by [from.way]
    leaves them in. *)
Theorem PassA_from_node `{ExternalSort} (c c' : ExtractionContainers) :
  PassA c = Returned c' →
  ∃ by_from,
    stxxl_sort CmpRestrictionContainerByFrom (restrictions_list c) = Returned by_from
    ∧ ∀ (i : nat) r w,
        by_from !! i = Some r →
        matched_way (way (from (restriction r))) (way_start_end_id_list c') = Some w →
        way_id w = way (from (restriction r))
        ∧ ∃ r', restrictions_list c' !! i = Some r'
          ∧ restriction_input r' = restriction_input r
          ∧ to (restriction r') = to (restriction r)
          ∧ (node (via (restriction r)) = first_segment_source_id w →
             node (from (restriction r')) = first_segment_target_id w)
          ∧ (node (via (restriction r)) ≠ first_segment_source_id w →
             node (via (restriction r)) = last_segment_target_id w →
             node (from (restriction r')) = last_segment_source_id w)
          ∧ (node (via (restriction r)) ≠ first_segment_source_id w →
             node (via (restriction r)) ≠ last_segment_target_id w →
             r' = r
             ∧ (node (from (restriction r)) = SPECIAL_NODEID →
                node (from (restriction r')) = SPECIAL_NODEID)).
Proof.
  intros Hp. apply PassA_spec in Hp as (by_from & _ & Hsort & Hrs).
  exists by_from. split; [exact Hsort|].
  intros i r w Hi Hw.
  split; [apply first_match_Some in Hw as [_ Hk]; exact Hk|].
  exists (fix_start w r). split.
  { rewrite Hrs, list_lookup_fmap, Hi. cbn. unfold update_from.
    unfold matched_way in Hw. cbn in Hw |- *. rewrite Hw. reflexivity. }
  unfold fix_start, restriction_input.
  destruct (N.eqb_spec (first_segment_source_id w) (node (via (restriction r)))) as [E1|E1];
    [|destruct (N.eqb_spec (last_segment_target_id w) (node (via (restriction r))))
        as [E2|E2]];
    cbn [restriction set_from_node via from to is_only way node];
    repeat (split || intro); try reflexivity; congruence.
Qed.

Lemma PassA_from_node_witness :
  (λ r, node (from (restriction r)))
    <$> restrictions_list (returned example_containers (@PassA merge_stxxl example_containers))
          !! 1%nat
  = Some 2.
Proof.
  destruct (@PassA_from_node merge_stxxl example_containers _ eq_refl)
    as (by_from & Hsort & Hall).
  vm_compute in Hsort. injection Hsort as <-.
  destruct (Hall 1%nat (example_restriction 10 1 11) way_10 eq_refl eq_refl)
    as (_ & r' & Hr' & _ & _ & Hfirst & _).
  exact (eq_trans (f_equal (fmap (λ r, node (from (restriction r)))) Hr')
           (f_equal Some (Hfirst eq_refl))).
Defined.

(** ** Running Pass A again *)


(** Sorted permutations of a list whose keys are pairwise distinct are one
    list: with distinct way ids the sort has no freedom. *)
Lemma sorted_distinct_keys_unique {A} (cmp : comparator A) (l l1 l2 : list A) :
  NoDup (key cmp <$> l) →
  l1 ≡ₚ l → StronglySorted (ordered cmp) l1 →
  l2 ≡ₚ l → StronglySorted (ordered cmp) l2 →
  l1 = l2.
Proof.
  intros Hnd Hp1 Hs1 Hp2 Hs2.
  apply (StronglySorted_unique_strong (ordered cmp)); try assumption.
  2: { by rewrite Hp1, Hp2. }
  intros x1 x2 Hx1 Hx2 H12 H21. unfold ordered in *.
  assert (Hk : key cmp x1 = key cmp x2) by lia.
  rewrite Hp1 in Hx1. rewrite Hp2 in Hx2.
  clear - Hnd Hx1 Hx2 Hk.
  induction l as [|a l IH]; [by apply elem_of_nil in Hx1|].
  rewrite fmap_cons in Hnd. apply NoDup_cons in Hnd as [Ha Hnd].
  apply elem_of_cons in Hx1 as [->|Hx1]; apply elem_of_cons in Hx2 as [->|Hx2].
  - reflexivity.
  - exfalso. apply Ha. rewrite Hk. by apply list_elem_of_fmap_2.
  - exfalso. apply Ha. rewrite <- Hk. by apply list_elem_of_fmap_2.
  - by apply IH.
Qed.

(** With pairwise distinct way ids a second Pass A finds the ways in the
    order the first one left them in. *)
Lemma PassA_ways_stable `{ExternalSort} c c1 c2 :
  NoDup (way_id <$> way_start_end_id_list c) →
  PassA c = Returned c1 →
  PassA c1 = Returned c2 →
  way_start_end_id_list c2 = way_start_end_id_list c1.
Proof.
  intros Hnd H1 H2.
  apply PassA_spec in H1 as (_ & Hw1 & _).
  apply PassA_spec in H2 as (_ & Hw2 & _).
  apply stxxl_sort_spec in Hw1 as [Hp1 Hs1].
  apply stxxl_sort_spec in Hw2 as [Hp2 Hs2].
  apply (sorted_distinct_keys_unique FirstAndLastSegmentOfWayStxxlCompare
           (way_start_end_id_list c)); try assumption.
  by rewrite Hp2.
Qed.



(** ** WriteRestrictions *)


Lemma is_usable_spec r :
  is_usable r = true
  ↔ node (from (restriction r)) ≠ SPECIAL_NODEID ∧ node (to (restriction r)) ≠ SPECIAL_NODEID.
Proof.
  unfold is_usable. rewrite andb_true_iff, !negb_true_iff, !N.eqb_neq.
  split; intros [? ?]; split; congruence.
Qed.

Lemma length_mjoin_fixed {A} (f : A → list byte) (size : nat) (l : list A) :
  (∀ a, length (f a) = size) → length (mjoin (f <$> l)) = (length l * size)%nat.
Proof.
  intros Hf. induction l as [|a l IH]; [reflexivity|].
  rewrite fmap_cons.
  change (length (f a ++ mjoin (f <$> l)) = (length (a :: l) * size)%nat).
  rewrite length_app, Hf, IH. reflexivity.
Qed.




(** ** The range table *)

Lemma sum_N_app l k : sum_N (l ++ k) = sum_N l + sum_N k.
Proof.
  unfold sum_N. induction l as [|x l IH]; [reflexivity|].
  cbn [app foldr]. rewrite IH. lia.
Qed.

Lemma sum_N_take_drop (l : list N) a j :
  sum_N (take a l) + sum_N (take j (drop a l)) = sum_N (take (a + j) l).
Proof. rewrite <- sum_N_app, take_take_drop. reflexivity. Qed.

Lemma block_index_lt (i n : nat) : (i < n → i / BLOCK_SIZE < number_of_blocks n)%nat.
Proof.
  intros Hi. unfold number_of_blocks, BLOCK_SIZE.
  apply Nat.Div0.div_lt_upper_bound.
  pose proof (Nat.div_mod_eq (n + 16 - 1) 16) as Hdm.
  pose proof (Nat.mod_upper_bound (n + 16 - 1) 16). lia.
Qed.

(** The table recovers for every index the range that starts at the sum of
    the lengths before it. *)
Lemma RangeTable_lookup_new (lengths : list N) (i : nat) (len : N) :
  lengths !! i = Some len →
  RangeTable_lookup (RangeTable_new lengths) i
  = Some (sum_N (take i lengths), sum_N (take i lengths) + len).
Proof.
  intros Hi. pose proof (lookup_lt_Some _ _ _ Hi) as Hlt.
  pose proof (block_index_lt i (length lengths) Hlt) as Hb.
  pose proof (Nat.div_mod_eq i BLOCK_SIZE) as Hdm.
  assert (Hj : (i mod BLOCK_SIZE < BLOCK_SIZE)%nat)
    by (apply Nat.mod_upper_bound; discriminate).
  unfold RangeTable_lookup, RangeTable_new. cbn [block_offsets diff_blocks].
  rewrite !list_lookup_fmap, (lookup_seq_lt _ _ _ Hb). cbn [fmap option_fmap option_map mbind option_bind Nat.add].
  rewrite lookup_take_lt by exact Hj.
  rewrite lookup_drop.
  replace (i / BLOCK_SIZE * BLOCK_SIZE + i mod BLOCK_SIZE)%nat with i by lia.
  rewrite Hi. cbn [mbind option_bind].
  rewrite take_take, Nat.min_l by lia.
  rewrite sum_N_take_drop.
  replace (i / BLOCK_SIZE * BLOCK_SIZE + i mod BLOCK_SIZE)%nat with i by lia.
  reflexivity.
Qed.

Lemma sum_N_lengths (ls : list (list byte)) :
  sum_N ((λ s, N.of_nat (length s)) <$> ls) = N.of_nat (length (mjoin ls)).
Proof.
  induction ls as [|s ls IH]; [reflexivity|].
  rewrite fmap_cons.
  change (N.of_nat (length s) + sum_N ((λ s, N.of_nat (length s)) <$> ls)
          = N.of_nat (length (s ++ mjoin ls))).
  rewrite IH, length_app. lia.
Qed.

(** Reading the range of the [i]th string out of the concatenation. *)
Lemma byte_range_mjoin (ls : list (list byte)) (i : nat) (s : list byte) :
  ls !! i = Some s →
  let first := N.of_nat (length (mjoin (take i ls))) in
  byte_range (mjoin ls) (first, first + N.of_nat (length s)) = s.
Proof.
  intros Hi first. unfold byte_range. cbn [fst snd].
  assert (Hsplit : mjoin ls = mjoin (take i ls) ++ s ++ mjoin (drop (S i) ls)).
  { rewrite <- (take_drop_middle ls i s Hi) at 1. by rewrite join_app. }
  rewrite Hsplit.
  subst first. rewrite Nat2N.id, drop_app_length.
  replace (N.to_nat (_ + N.of_nat (length s) - _)) with (length s) by lia.
  apply take_app_length.
Qed.

(** ** WriteNames *)

Lemma measure_names_spec names c k lens :
  measure_names names ((c + k) mod 2 ^ 32, lens)
  = ((c + (k + sum_N (string_length <$> names))) mod 2 ^ 32,
     lens ++ (string_length <$> names)).
Proof.
  unfold measure_names. revert k lens. induction names as [|s names IH]; intros k lens.
  { cbn. rewrite N.add_0_r, app_nil_r. reflexivity. }
  cbn [foldl fst snd]. rewrite N.Div0.add_mod_idemp_l.
  replace (c + k + string_length s) with (c + (k + string_length s)) by lia.
  rewrite IH, fmap_cons, <- app_assoc.
  change (sum_N (string_length s :: (string_length <$> names)))
    with (string_length s + sum_N (string_length <$> names)).
  f_equal. f_equal. lia.
Qed.

Lemma write_chars_stream names bs :
  write_chars names (stream_at_end bs)
  = stream_at_end
      (bs ++ mjoin ((λ s, take (N.to_nat (string_length s)) s) <$> names)).
Proof.
  unfold write_chars. revert bs. induction names as [|s names IH]; intros bs.
  { cbn. rewrite app_nil_r. reflexivity. }
  cbn [foldl]. rewrite write_stream_at_end, IH, fmap_cons, <- app_assoc. reflexivity.
Qed.

Lemma string_length_small s :
  N.of_nat (length s) < 2 ^ 32 → string_length s = N.min (N.of_nat (length s)) 255.
Proof. intros Hs. unfold string_length, to_unsigned. by rewrite N.mod_small. Qed.

(** C6: the name file is the range table built from the lengths
    [min (length, 255)] of the names, the total-length field, which read back
    is the sum of those lengths, and the first [min (length, 255)] bytes of
    every name, in list order; the range that the table gives for index [i]
    starts at the sum of the lengths before [i], and reading it out of the
    part of the file behind the total-length field yields the first
    [min (length s, 255)] bytes of the name [s] at index [i]. The lengths are
    values of [unsigned] here: the names are shorter than 2^32 bytes and the
    sum is below 2^32. *)
Theorem WriteNames_file `{Layout} (c : ExtractionContainers) :
  let names := name_list c in
  let lengths := (λ s, N.min (N.of_nat (length s)) 255) <$> names in
  let table := bytes_of_RangeTable (RangeTable_new lengths) in
  let blob := drop (length table + 4) (WriteNames c) in
  Forall (λ s, N.of_nat (length s) < 2 ^ 32) names →
  sum_N lengths < 2 ^ 32 →
  WriteNames c
    = table ++ bytes_of_unsigned (sum_N lengths)
        ++ mjoin ((λ s, take (min (length s) 255) s) <$> names)
  ∧ read_unsigned (WriteNames c) (length table) = sum_N lengths
  ∧ N.of_nat (length blob) = sum_N lengths
  ∧ ∀ (i : nat) s,
      names !! i = Some s →
      let first := sum_N (take i lengths) in
      let range := (first, first + N.min (N.of_nat (length s)) 255) in
      RangeTable_lookup (RangeTable_new lengths) i = Some range
      ∧ byte_range blob range = take (min (length s) 255) s.
Proof.
  intros names lengths table blob Hnames Htotal.
  assert (Hlen : string_length <$> names = lengths).
  { subst lengths. apply Forall_fmap_ext_1.
    eapply Forall_impl; [exact Hnames|]. intros s. apply string_length_small. }
  assert (Hblob : (λ s, take (N.to_nat (string_length s)) s) <$> names
                  = (λ s, take (min (length s) 255) s) <$> names).
  { apply Forall_fmap_ext_1. eapply Forall_impl; [exact Hnames|].
    intros s Hs. cbn beta. rewrite (string_length_small s Hs). f_equal. lia. }
  assert (Hlengths : lengths
            = (λ s, N.of_nat (length s)) <$> ((λ s, take (min (length s) 255) s) <$> names)).
  { subst lengths. rewrite <- list_fmap_compose. apply list_fmap_ext.
    intros _ s _. cbn. rewrite length_take. lia. }
  assert (Hfile : WriteNames c
            = table ++ bytes_of_unsigned (sum_N lengths)
                ++ mjoin ((λ s, take (min (length s) 255) s) <$> names)).
  { unfold WriteNames.
    pose proof (measure_names_spec (name_list c) 0 0 []) as Hm.
    change ((0 + 0) mod 2 ^ 32) with 0 in Hm. rewrite Hm. fold names.
    rewrite Hlen, !N.add_0_l, app_nil_l, (N.mod_small _ _ Htotal).
    change ofstream_open with (stream_at_end []).
    rewrite !write_stream_at_end, write_chars_stream. cbn [contents stream_at_end app].
    rewrite Hblob, <- app_assoc. reflexivity. }
  assert (Hdrop : blob = mjoin ((λ s, take (min (length s) 255) s) <$> names)).
  { subst blob. rewrite Hfile, app_assoc.
    replace (length table + 4)%nat
      with (length (table ++ bytes_of_unsigned (sum_N lengths)))
      by (rewrite length_app; reflexivity).
    apply drop_app_length. }
  split; [exact Hfile|]. split; [|split].
  - rewrite Hfile, read_unsigned_app. by apply N.mod_small.
  - rewrite Hdrop. rewrite Hlengths at 1. symmetry. apply sum_N_lengths.
  - intros i s Hi first range.
    assert (Hli : lengths !! i = Some (N.min (N.of_nat (length s)) 255)).
    { subst lengths. rewrite list_lookup_fmap, Hi. reflexivity. }
    split; [exact (RangeTable_lookup_new _ _ _ Hli)|].
    assert (Hsum : first
              = N.of_nat (length (mjoin (take i
                  ((λ s, take (min (length s) 255) s) <$> names)))))
      by (subst first; rewrite Hlengths, <- fmap_take; apply sum_N_lengths).
    subst range. rewrite Hdrop, !Hsum.
    replace (N.min (N.of_nat (length s)) 255)
      with (N.of_nat (length (take (min (length s) 255) s)))
      by (rewrite length_take; lia).
    apply byte_range_mjoin.
    rewrite list_lookup_fmap, Hi. reflexivity.
Qed.

(** ** PrepareEdges *)

Lemma attach_source_result nodes e : result (attach_source nodes e) = result e.
Proof.
  unfold attach_source, update_from.
  destruct (first_match _ _ nodes); reflexivity.
Qed.

(** What [PrepareEdges] computes when the nodes are sorted (as [PrepareNodes]
    leaves them): the two sorts, and between and after them the two merges. *)
Lemma PrepareEdges_spec `{ExternalSort} `{CoordinateCalculation} c c' :
  StronglySorted (ordered ExternalMemoryNodeSTXXLCompare) (all_nodes_list c) →
  PrepareEdges c = Returned c' →
  ∃ by_start by_target,
    stxxl_sort CmpEdgeByStartID (all_edges_list c) = Returned by_start
    ∧ stxxl_sort CmpEdgeByTargetID (attach_source (all_nodes_list c) <$> by_start)
      = Returned by_target
    ∧ all_edges_list c' = attach_weight (all_nodes_list c) <$> by_target
    ∧ all_nodes_list c' = all_nodes_list c.
Proof.
  unfold PrepareEdges. intros Hnodes Hp.
  destruct (stxxl_sort CmpEdgeByStartID (all_edges_list c)) as [by_start|] eqn:H1;
    [|discriminate].
  cbn in Hp.
  assert (Hattach : set_start_coords by_start (all_nodes_list c)
                    = attach_source (all_nodes_list c) <$> by_start).
  { rewrite set_start_coords_merge. apply merge_update_sorted; [|exact Hnodes].
    by apply stxxl_sort_spec in H1 as [_ ?]. }
  rewrite Hattach in Hp.
  destruct (stxxl_sort CmpEdgeByTargetID (attach_source (all_nodes_list c) <$> by_start))
    as [by_target|] eqn:H2; [|discriminate].
  cbn in Hp. injection Hp as <-.
  cbn [all_edges_list all_nodes_list with_all_edges].
  exists by_start, by_target.
  split; [reflexivity|]. split; [exact H2|]. split; [|reflexivity].
  rewrite compute_weights_merge. apply merge_update_sorted; [|exact Hnodes].
  by apply stxxl_sort_spec in H2 as [_ ?].
Qed.

(** [PrepareEdges] raises only what one of its two sorts raises: the merges
    themselves, whatever edge they skip, never do. *)
Lemma PrepareEdges_raised `{ExternalSort} `{CoordinateCalculation} c e :
  PrepareEdges c = Raised e →
  stxxl_sort CmpEdgeByStartID (all_edges_list c) = Raised e
  ∨ ∃ by_start,
      stxxl_sort CmpEdgeByStartID (all_edges_list c) = Returned by_start
      ∧ stxxl_sort CmpEdgeByTargetID (set_start_coords by_start (all_nodes_list c))
        = Raised e.
Proof.
  unfold PrepareEdges. intros Hp.
  destruct (stxxl_sort CmpEdgeByStartID (all_edges_list c)) as [by_start|e1] eqn:H1.
  - right. exists by_start. split; [reflexivity|]. cbn in Hp.
    destruct (stxxl_sort CmpEdgeByTargetID _) as [by_target|e2]; [discriminate|].
    cbn in Hp. by injection Hp as ->.
  - left. cbn in Hp. by injection Hp as ->.
Qed.

(** ** WriteEdges *)

Lemma write_used_edges_filter `{Layout} edges st :
  write_used_edges edges st = write_used_edges (used_edges edges) st.
Proof.
  unfold write_used_edges, used_edges. revert st.
  induction edges as [|e edges IH]; intros st; [reflexivity|].
  cbn [foldl List.filter]. destruct (0 <? weight (result e))%Z eqn:Hw.
  - cbn [foldl]. rewrite Hw. apply IH.
  - apply IH.
Qed.

Lemma WriteEdges_used `{Layout} c s :
  WriteEdges c s = WriteEdges (with_all_edges c (used_edges (all_edges_list c))) s.
Proof. unfold WriteEdges. cbn. by rewrite write_used_edges_filter. Qed.

Lemma used_edges_delete edges i e :
  edges !! i = Some e →
  (weight (result e) ≤ 0)%Z →
  used_edges (delete i edges) = used_edges edges.
Proof.
  intros Hi Hw. rewrite delete_take_drop.
  rewrite <- (take_drop_middle edges i e Hi) at 3.
  unfold used_edges. rewrite !List.filter_app. cbn [List.filter].
  destruct (Z.ltb_spec 0 (weight (result e))); [lia | reflexivity].
Qed.

Lemma used_edges_middle edges i e :
  edges !! i = Some e →
  (0 < weight (result e))%Z →
  used_edges edges
  = used_edges (take i edges) ++ (e :: used_edges (drop (S i) edges)).
Proof.
  intros Hi Hw. rewrite <- (take_drop_middle edges i e Hi) at 1.
  unfold used_edges. rewrite List.filter_app. cbn [List.filter].
  destruct (Z.ltb_spec 0 (weight (result e))); [reflexivity | lia].
Qed.

Lemma write_used_edges_stream `{Layout} edges bs c k :
  write_used_edges edges (stream_at_end bs, (c + k) mod 2 ^ 32)
  = (stream_at_end
       (bs ++ mjoin ((λ e, bytes_of_NodeBasedEdge (result e)) <$> used_edges edges)),
     (c + (k + N.of_nat (length (used_edges edges)))) mod 2 ^ 32).
Proof.
  unfold write_used_edges, used_edges.
  revert bs k. induction edges as [|e edges IH]; intros bs k.
  { cbn. rewrite app_nil_r, N.add_0_r. reflexivity. }
  cbn [foldl List.filter fst snd].
  destruct (0 <? weight (result e))%Z.
  - rewrite write_stream_at_end, incr_unsigned_add, IH.
    cbn [fmap list_fmap mjoin list_join length]. rewrite <- app_assoc.
    do 2 f_equal. lia.
  - apply IH.
Qed.

(** The part of the main file that [WriteEdges] adds behind [bs]: the count
    field and the records of the edges with a positive weight. *)
Lemma WriteEdges_contents `{Layout} c bs :
  let written := used_edges (all_edges_list c) in
  contents (WriteEdges c (stream_at_end bs))
  = bs ++ bytes_of_unsigned (N.of_nat (length written) mod 2 ^ 32)
      ++ mjoin ((λ e, bytes_of_NodeBasedEdge (result e)) <$> written).
Proof.
  intros written. unfold WriteEdges.
  rewrite write_stream_at_end.
  pose proof (write_used_edges_stream (all_edges_list c) (bs ++ bytes_of_unsigned 0) 0 0)
    as Hloop.
  change ((0 + 0) mod 2 ^ 32) with 0 in Hloop. rewrite Hloop.
  fold written. rewrite !N.add_0_l.
  change (tellp (stream_at_end bs)) with (length bs).
  rewrite <- app_assoc.
  apply (write_patch bs (bytes_of_unsigned 0)). reflexivity.
Qed.

(** ** Edge weights *)


(** The [default] branch: the lambda returns [-1.0]. *)
Lemma edge_weight_default distance data :
  type data ≠ SPEED → type data ≠ EDGE_DURATION → type data ≠ WAY_DURATION →
  edge_weight distance data = (-1.0)%float.
Proof. unfold edge_weight. destruct (type data); congruence. Qed.

(** [std::max(1, (int)std::floor(-1.0 + .5))] is 1. *)
Lemma integer_weight_default : integer_weight (-1.0)%float = 1%Z.
Proof. vm_compute. reflexivity. Qed.


(** Whatever the conversion yields, the stored weight is a positive [int]. *)
Lemma integer_weight_bounds weight : (1 ≤ integer_weight weight ≤ INT_MAX)%Z.
Proof.
  unfold integer_weight, int_of_floor, in_int_range.
  destruct (floor_Z _) as [z|]; [|vm_compute; split; discriminate].
  destruct (Z.leb_spec INT_MIN z); destruct (Z.leb_spec z INT_MAX); cbn [andb];
    unfold INT_MIN, INT_MAX in *; lia.
Qed.

Lemma assign_weight_set `{CoordinateCalculation} n e :
  source_coordinate_is_set e = true →
  assign_weight n e
  = set_weight e
      (integer_weight
         (edge_weight
            (euclidean_distance (coord_lat (source_coordinate e))
               (coord_lon (source_coordinate e)) (lat n) (lon n))
            (weight_data e))).
Proof. intros Hset. unfold assign_weight. rewrite Hset. reflexivity. Qed.

Lemma assign_weight_target `{CoordinateCalculation} n e :
  target (result (assign_weight n e)) = target (result e).
Proof. unfold assign_weight. destruct (source_coordinate_is_set e); reflexivity. Qed.

Lemma attach_weight_matched `{CoordinateCalculation} nodes e n :
  matched_node (target (result e)) nodes = Some n →
  attach_weight nodes e = assign_weight n e.
Proof.
  unfold matched_node, attach_weight, update_from. cbn [key CmpEdgeByTargetID].
  by intros ->.
Qed.

Lemma attach_weight_unmatched `{CoordinateCalculation} nodes e :
  target (result e) ∉ node_id <$> nodes →
  attach_weight nodes e = e.
Proof.
  intros Hnot. unfold attach_weight, update_from. cbn [key CmpEdgeByTargetID].
  apply (first_match_None ExternalMemoryNodeSTXXLCompare) in Hnot.
  by rewrite Hnot.
Qed.

Lemma attach_weight_target `{CoordinateCalculation} nodes e :
  target (result (attach_weight nodes e)) = target (result e).
Proof.
  unfold attach_weight, update_from.
  destruct (first_match _ _ nodes); [apply assign_weight_target | reflexivity].
Qed.


(** C10: an edge whose target matches a node and whose source coordinate is
    set, but whose weight type is none of the three the code names, leaves
    [PrepareEdges] with weight 1 and otherwise as it was; [WriteEdges]
    therefore writes its record, between those of the used edges before and
    after it, and the count field read back counts it. *)
Theorem invalid_weight_type_weight_one `{ExternalSort} `{CoordinateCalculation} `{Layout}
    (c c' : ExtractionContainers) :
  StronglySorted (ordered ExternalMemoryNodeSTXXLCompare) (all_nodes_list c) →
  PrepareEdges c = Returned c' →
  ∃ by_start by_target,
    stxxl_sort CmpEdgeByStartID (all_edges_list c) = Returned by_start
    ∧ stxxl_sort CmpEdgeByTargetID (attach_source (all_nodes_list c) <$> by_start)
      = Returned by_target
    ∧ ∀ (i : nat) e n,
        by_target !! i = Some e →
        matched_node (target (result e)) (all_nodes_list c) = Some n →
        source_coordinate_is_set e = true →
        type (weight_data e) ≠ SPEED →
        type (weight_data e) ≠ EDGE_DURATION →
        type (weight_data e) ≠ WAY_DURATION →
        let edges := all_edges_list c' in
        let written := used_edges edges in
        let before := used_edges (take i edges) in
        let after := used_edges (drop (S i) edges) in
        ∃ e',
          edges !! i = Some e'
          ∧ weight (result e') = 1%Z
          ∧ edge_input e' = edge_input e
          ∧ source_coordinate e' = source_coordinate e
          ∧ written = before ++ (e' :: after)
          ∧ ∀ bs,
              let file := contents (WriteEdges c' (stream_at_end bs)) in
              file
              = bs ++ bytes_of_unsigned (N.of_nat (length written) mod 2 ^ 32)
                  ++ mjoin ((λ e, bytes_of_NodeBasedEdge (result e)) <$> written)
              ∧ read_unsigned file (length bs) = N.of_nat (length written) mod 2 ^ 32
              ∧ (N.of_nat (length written) < 2 ^ 32 →
                 read_unsigned file (length bs)
                 = N.of_nat (length before) + 1 + N.of_nat (length after)).
Proof.
  intros Hnodes Hp.
  destruct (PrepareEdges_spec c c' Hnodes Hp) as (by_start & by_target & Hs1 & Hs2 & Hout & _).
  exists by_start, by_target. split; [exact Hs1|]. split; [exact Hs2|].
  intros i e n Hi Hn Hset Ht1 Ht2 Ht3 edges written before after.
  assert (Hedge : edges !! i = Some (set_weight e 1)).
  { subst edges. rewrite Hout, list_lookup_fmap, Hi. cbn [fmap option_fmap option_map].
    f_equal. rewrite (attach_weight_matched _ _ _ Hn), (assign_weight_set _ _ Hset).
    rewrite edge_weight_default by assumption. by rewrite integer_weight_default. }
  assert (Hmid : written = before ++ (set_weight e 1 :: after))
    by (apply used_edges_middle; [exact Hedge | reflexivity]).
  exists (set_weight e 1).
  split; [exact Hedge|]. split; [reflexivity|]. split; [reflexivity|].
  split; [reflexivity|]. split; [exact Hmid|].
  intros bs file.
  assert (Hfile : file
            = bs ++ bytes_of_unsigned (N.of_nat (length written) mod 2 ^ 32)
                ++ mjoin ((λ e, bytes_of_NodeBasedEdge (result e)) <$> written))
    by apply WriteEdges_contents.
  assert (Hread : read_unsigned file (length bs) = N.of_nat (length written) mod 2 ^ 32)
    by (rewrite Hfile, read_unsigned_app; apply N.Div0.mod_mod).
  split; [exact Hfile|]. split; [exact Hread|].
  intros Hsmall. rewrite Hread, (N.mod_small _ _ Hsmall), Hmid, length_app.
  cbn [length]. lia.
Qed.

(** The output fields of an edge are those it was appended with, but for the
    weight, which only a node with the id of its target sets. *)
Lemma PrepareEdges_pointwise `{ExternalSort} `{CoordinateCalculation} c c' (i : nat) e' :
  PrepareEdges c = Returned c' →
  all_edges_list c' !! i = Some e' →
  ∃ e, e ∈ all_edges_list c
       ∧ target (result e') = target (result e)
       ∧ (result e' = result e ∨ target (result e') ∈ node_id <$> all_nodes_list c).
Proof.
  unfold PrepareEdges. intros Hp Hi.
  destruct (stxxl_sort CmpEdgeByStartID (all_edges_list c)) as [by_start|] eqn:Hs1;
    [|discriminate].
  cbn in Hp.
  destruct (stxxl_sort CmpEdgeByTargetID (set_start_coords by_start (all_nodes_list c)))
    as [by_target|] eqn:Hs2; [|discriminate].
  cbn in Hp. injection Hp as <-. cbn [all_edges_list all_nodes_list with_all_edges] in Hi.
  apply stxxl_sort_spec in Hs1 as [Hperm1 _].
  apply stxxl_sort_spec in Hs2 as [Hperm2 _].
  (* back through the weight merge *)
  rewrite compute_weights_merge in Hi.
  destruct (Forall2_lookup_r _ _ _ _ _
              (merge_update_pointwise CmpEdgeByTargetID ExternalMemoryNodeSTXXLCompare
                 assign_weight by_target (all_nodes_list c)) Hi)
    as (e3 & H3 & Hweight).
  (* back through the sort by target and the source merge *)
  apply list_elem_of_lookup_2 in H3. rewrite Hperm2, set_start_coords_merge in H3.
  apply list_elem_of_lookup_1 in H3 as [j Hj].
  destruct (Forall2_lookup_r _ _ _ _ _
              (merge_update_pointwise CmpEdgeByStartID ExternalMemoryNodeSTXXLCompare
                 (λ n e, set_source_coordinate e (lat n) (lon n))
                 by_start (all_nodes_list c)) Hj)
    as (e1 & H1' & Hsource).
  apply list_elem_of_lookup_2 in H1'. rewrite Hperm1 in H1'.
  assert (Hres : result e3 = result e1).
  { destruct Hsource as [->|(n & _ & _ & ->)]; reflexivity. }
  exists e1. split; [exact H1'|].
  destruct Hweight as [->|(n & Hn & Hk & ->)].
  - split; [by rewrite Hres | left; exact Hres].
  - rewrite assign_weight_target, Hres. split; [reflexivity|].
    right. rewrite <- Hres. cbn in Hk. rewrite <- Hk. by apply list_elem_of_fmap_2.
Qed.

(** C8: the weight merge never raises (only a sort can), and an edge whose
    target is the id of no node leaves [PrepareEdges] with the output fields,
    weight included, it was appended with; when that weight is the initial 0,
    [WriteEdges] neither writes nor counts it: the stream is the one it would
    be without that edge. *)
Theorem dangling_target_skipped `{ExternalSort} `{CoordinateCalculation} `{Layout}
    (c : ExtractionContainers) :
  (∀ e, PrepareEdges c = Raised e →
        stxxl_sort CmpEdgeByStartID (all_edges_list c) = Raised e
        ∨ ∃ by_start,
            stxxl_sort CmpEdgeByStartID (all_edges_list c) = Returned by_start
            ∧ stxxl_sort CmpEdgeByTargetID (set_start_coords by_start (all_nodes_list c))
              = Raised e)
  ∧ ∀ c', PrepareEdges c = Returned c' →
      ∀ (i : nat) e',
        all_edges_list c' !! i = Some e' →
        target (result e') ∉ node_id <$> all_nodes_list c →
        (∃ e, e ∈ all_edges_list c ∧ result e' = result e)
        ∧ (weight (result e') = 0%Z →
           (e' ∉ used_edges (all_edges_list c'))
           ∧ ∀ s, WriteEdges c' s
                  = WriteEdges (with_all_edges c' (delete i (all_edges_list c'))) s).
Proof.
  split; [intros e; apply PrepareEdges_raised|].
  intros c' Hp i e' Hi Hdangling.
  split.
  - destruct (PrepareEdges_pointwise c c' i e' Hp Hi) as (e & He & _ & [Hres|Hin]).
    + by exists e.
    + contradiction.
  - intros Hw. split.
    + unfold used_edges. rewrite list_elem_of_In, filter_In, Hw. intros [_ ?]. discriminate.
    + intros s. rewrite WriteEdges_used. symmetry. rewrite WriteEdges_used.
      cbn [all_edges_list with_all_edges].
      rewrite (used_edges_delete _ _ _ Hi) by lia. reflexivity.
Qed.

Lemma example_nodes_sorted :
  StronglySorted (ordered ExternalMemoryNodeSTXXLCompare)
    (all_nodes_list (returned example_containers
                       (@PrepareNodes merge_stxxl example_containers))).
Proof.
  by destruct (@PrepareNodes_spec merge_stxxl example_containers _ eq_refl)
    as (_ & _ & Hsorted & _).
Qed.



Lemma invalid_weight_type_weight_one_witness :
  let c1 := returned example_containers (@PrepareNodes merge_stxxl example_containers) in
  let c2 := returned c1 (@PrepareEdges merge_stxxl (constant_distance 111.2) c1) in
  (λ e, weight (result e)) <$> all_edges_list c2 !! 0%nat = Some 1%Z.
Proof.
  intros c1 c2.
  destruct (@invalid_weight_type_weight_one merge_stxxl (constant_distance 111.2)
              packed_layout c1 c2 example_nodes_sorted eq_refl)
    as (by_start & by_target & Hs1 & Hs2 & Hall).
  vm_compute in Hs1. injection Hs1 as <-.
  vm_compute in Hs2. injection Hs2 as <-.
  destruct (Hall 0%nat _ (example_node 3 0 0) eq_refl eq_refl eq_refl)
    as (e' & He' & Hweight & _); try discriminate.
  exact (eq_trans (f_equal (fmap (λ e, weight (result e))) He') (f_equal Some Hweight)).
Defined.

Lemma dangling_target_skipped_witness :
  let c1 := returned example_containers (@PrepareNodes merge_stxxl example_containers) in
  let c2 := returned c1 (@PrepareEdges merge_stxxl (constant_distance 111.2) c1) in
  let s := @WriteNodes packed_layout c1 (write ofstream_open (@fingerprint packed_layout)) in
  @WriteEdges packed_layout c2 s
  = @WriteEdges packed_layout (with_all_edges c2 (delete 4%nat (all_edges_list c2))) s.
Proof.
  intros c1 c2 s.
  destruct (@dangling_target_skipped merge_stxxl (constant_distance 111.2) packed_layout c1)
    as [_ Hskip].
  refine (proj2 (proj2 (Hskip c2 eq_refl 4%nat
                          (set_source_coordinate (example_edge 3 99 SPEED 36) 0 0)
                          eq_refl _) eq_refl) s).
  apply (bool_decide_unpack _). vm_compute. exact I.
Defined.

(** C2: on the example map, whose edge from node 4 to node 3 has a weight type
    that is none of the three, nothing is raised: [PrepareEdges] returns, that
    edge has weight 1, and [PrepareData] returns with nothing printed on
    standard error. *)
Lemma invalid_weight_type_not_raised :
  let c1 := returned example_containers (@PrepareNodes merge_stxxl example_containers) in
  let c2 := returned c1 (@PrepareEdges merge_stxxl (constant_distance 111.2) c1) in
  let done := @PrepareData merge_stxxl (constant_distance 111.2) packed_layout
                "map.osrm" "map.osrm.restrictions" "map.osrm.names" example_world in
  @PrepareEdges merge_stxxl (constant_distance 111.2) c1 = Returned c2
  ∧ (λ e, (source (result e), target (result e), type (weight_data e), weight (result e)))
      <$> all_edges_list c2
    = [ (4, 3, INVALID, 1%Z); (98, 4, WAY_DURATION, 0%Z); (3, 5, SPEED, 111%Z);
        (5, 9, EDGE_DURATION, 50%Z); (3, 99, SPEED, 0%Z) ]
  ∧ fst done = Returned ()
  ∧ cerr (snd done) = [].
Proof. vm_compute. repeat split. Qed.

Lemma WriteNames_file_witness :
  let file := @WriteNames packed_layout example_containers in
  read_unsigned file 11 = 259
  ∧ byte_range (drop (11 + 4) file) (4, 4 + 255) = replicate 255 x61.
Proof.
  intros file.
  destruct (@WriteNames_file packed_layout example_containers) as (_ & Hread & _ & Hall).
  - repeat constructor.
  - vm_compute. reflexivity.
  - split; [exact Hread|].
    exact (proj2 (Hall 2%nat (replicate 300 x61) eq_refl)).
Defined.

(** ** PrepareData *)

(** The member functions on the vectors of the object return what the
    functions on values return and raise what they raise; only the
    containers change. *)
Lemma PrepareRestrictions_in_place_spec `{ExternalSort} w :
  match PrepareRestrictions (containers w) with
  | Returned c' => PrepareRestrictions_in_place w = (Returned (), with_containers w c')
  | Raised e => ∃ c', PrepareRestrictions_in_place w = (Raised e, with_containers w c')
  end.
Proof.
  unfold PrepareRestrictions, PassA, PassB, PrepareRestrictions_in_place, sort_in_place,
    in_place, mbind, M_mbind, M_bind, outcome_bind, obind, mret, outcome_ret.
  cbn.
  destruct (stxxl_sort FirstAndLastSegmentOfWayStxxlCompare _); cbn; [|by eexists].
  destruct (stxxl_sort CmpRestrictionContainerByFrom _); cbn; [|by eexists].
  destruct (stxxl_sort CmpRestrictionContainerByTo _); cbn; [reflexivity | by eexists].
Qed.

Lemma PrepareNodes_in_place_spec `{ExternalSort} w :
  match PrepareNodes (containers w) with
  | Returned c' => PrepareNodes_in_place w = (Returned (), with_containers w c')
  | Raised e => ∃ c', PrepareNodes_in_place w = (Raised e, with_containers w c')
  end.
Proof.
  unfold PrepareNodes, PrepareNodes_in_place, sort_in_place, in_place, mbind, M_mbind, M_bind,
    outcome_bind, obind, mret, outcome_ret.
  cbn.
  destruct (stxxl_sort Cmp _); cbn; [|by eexists].
  destruct (stxxl_sort ExternalMemoryNodeSTXXLCompare _); cbn; [reflexivity | by eexists].
Qed.

Lemma PrepareEdges_in_place_spec `{ExternalSort} `{CoordinateCalculation} w :
  match PrepareEdges (containers w) with
  | Returned c' => PrepareEdges_in_place w = (Returned (), with_containers w c')
  | Raised e => ∃ c', PrepareEdges_in_place w = (Raised e, with_containers w c')
  end.
Proof.
  unfold PrepareEdges, PrepareEdges_in_place, sort_in_place, in_place, mbind, M_mbind, M_bind,
    outcome_bind, obind, mret, outcome_ret.
  cbn.
  destruct (stxxl_sort CmpEdgeByStartID _); cbn; [|by eexists].
  destruct (stxxl_sort CmpEdgeByTargetID _); cbn; [reflexivity | by eexists].
Qed.

Lemma containers_store path bs w : containers (store path bs w) = containers w.
Proof. unfold store. by destruct (can_open w path). Qed.

Lemma cerr_store path bs w : cerr (store path bs w) = cerr w.
Proof. unfold store. by destruct (can_open w path). Qed.

Lemma can_open_store path bs w : can_open (store path bs w) = can_open w.
Proof. unfold store. by destruct (can_open w path). Qed.

Lemma files_store_eq path bs w :
  can_open w path = true → files (store path bs w) !! path = Some bs.
Proof. unfold store. intros ->. apply lookup_insert_eq. Qed.

Lemma files_store_ne path path' bs w :
  path' ≠ path → files (store path bs w) !! path' = files w !! path'.
Proof.
  unfold store. intros Hne. destruct (can_open w path); [|reflexivity].
  by apply lookup_insert_ne.
Qed.

Lemma contents_write_open bs : contents (write ofstream_open bs) = bs.
Proof. change ofstream_open with (stream_at_end []). by rewrite write_stream_at_end. Qed.

Lemma files_store_ext path bs w1 w2 :
  files w1 = files w2 → can_open w1 = can_open w2 →
  files (store path bs w1) = files (store path bs w2).
Proof.
  unfold store. intros Hf Ho. rewrite Ho.
  destruct (can_open w2 path); cbn [files]; by rewrite Hf.
Qed.

(** The run of [PrepareData], by the outcome of its three preparation
    steps: the state it returns in. *)
Lemma PrepareData_run `{ExternalSort} `{CoordinateCalculation} `{Layout}
    (output_file_name restrictions_file_name name_file_name : string) (w : world) :
  let line (e : std_exception) := "Caught Execption:" +:+ what e in
  let s0 := write ofstream_open fingerprint in
  ∃ w',
    PrepareData output_file_name restrictions_file_name name_file_name w = (Returned (), w')
    ∧ can_open w' = can_open w
    ∧ match PrepareRestrictions (containers w) with
      | Raised e => cerr w' = cerr w ++ [line e] ∧ files w' = files w
      | Returned c1 =>
          let w1 :=
            store output_file_name (contents s0)
              (store restrictions_file_name (WriteRestrictions c1) w) in
          match PrepareNodes c1 with
          | Raised e => cerr w' = cerr w ++ [line e] ∧ files w' = files w1
          | Returned c2 =>
              let s1 := WriteNodes c2 s0 in
              let w2 := store output_file_name (contents s1) w1 in
              match PrepareEdges c2 with
              | Raised e => cerr w' = cerr w ++ [line e] ∧ files w' = files w2
              | Returned c3 =>
                  cerr w' = cerr w
                  ∧ containers w' = c3
                  ∧ files w'
                    = files (store name_file_name (WriteNames c3)
                               (store output_file_name (contents (WriteEdges c3 s1)) w2))
              end
          end
      end.
Proof.
  intros line s0.
  unfold PrepareData, try_catch, mbind, M_mbind, M_bind, write_file, write_stream, print_cerr.
  pose proof (PrepareRestrictions_in_place_spec w) as HR.
  destruct (PrepareRestrictions (containers w)) as [c1|e1].
  2: { destruct HR as [c' ->]. eexists. split; [reflexivity|]. by repeat split. }
  rewrite HR. cbn [containers with_containers].
  set (wa := store output_file_name _ (store restrictions_file_name _ (with_containers w c1))).
  assert (Hca : containers wa = c1) by (subst wa; by rewrite !containers_store).
  assert (Hoa : can_open wa = can_open w) by (subst wa; by rewrite !can_open_store).
  assert (Hea : cerr wa = cerr w) by (subst wa; by rewrite !cerr_store).
  assert (Hfa : files wa
            = files (store output_file_name (contents s0)
                       (store restrictions_file_name (WriteRestrictions c1) w))).
  { subst wa. apply files_store_ext; [by apply files_store_ext|].
    by rewrite !can_open_store. }
  pose proof (PrepareNodes_in_place_spec wa) as HN. rewrite Hca in HN.
  destruct (PrepareNodes c1) as [c2|e2].
  2: { destruct HN as [c' ->]. eexists. split; [reflexivity|].
       cbn [can_open cerr files with_containers]. rewrite Hoa, Hea, Hfa. by repeat split. }
  rewrite HN. cbn [containers with_containers].
  set (wb := store output_file_name _ (with_containers wa c2)).
  assert (Hcb : containers wb = c2) by (subst wb; by rewrite !containers_store).
  assert (Hob : can_open wb = can_open w) by (subst wb; by rewrite !can_open_store).
  assert (Heb : cerr wb = cerr w) by (subst wb; by rewrite !cerr_store).
  assert (Hfb : files wb
            = files (store output_file_name (contents (WriteNodes c2 s0))
                       (store output_file_name (contents s0)
                          (store restrictions_file_name (WriteRestrictions c1) w)))).
  { subst wb. apply files_store_ext; [exact Hfa|].
    rewrite !can_open_store. exact Hoa. }
  pose proof (PrepareEdges_in_place_spec wb) as HE. rewrite Hcb in HE.
  destruct (PrepareEdges c2) as [c3|e3].
  2: { destruct HE as [c' ->]. eexists. split; [reflexivity|].
       cbn [can_open cerr files with_containers]. rewrite Hob, Heb, Hfb. by repeat split. }
  rewrite HE. cbn [containers with_containers].
  eexists. split; [reflexivity|].
  rewrite !can_open_store, !cerr_store, !containers_store.
  cbn [can_open cerr containers with_containers].
  split; [exact Hob|]. split; [exact Heb|]. split; [reflexivity|].
  apply files_store_ext; [apply files_store_ext; [exact Hfb|]|];
    rewrite !can_open_store; exact Hob.
Qed.

(** C1, as amended: whatever a preparation step raises (a sort whose storage
    is exhausted), [PrepareData] catches it and returns normally to its
    caller. It has then printed one line on standard error, the message of
    that exception behind "Caught Execption:" (and it prints nothing when no
    step raises); the steps after the one that raised are skipped and nothing
    is undone: when [PrepareRestrictions] raises, no file has been written;
    when [PrepareNodes] raises, the restrictions file is complete and the
    main file holds the fingerprint alone; when [PrepareEdges] raises, the
    main file ends behind what [WriteNodes] wrote; the name file is written
    in none of these cases. A file is spoken of when its path can be
    opened. *)
Theorem PrepareData_returns `{ExternalSort} `{CoordinateCalculation} `{Layout}
    (output_file_name restrictions_file_name name_file_name : string) (w : world) :
  let line (e : std_exception) := "Caught Execption:" +:+ what e in
  ∃ w',
    PrepareData output_file_name restrictions_file_name name_file_name w = (Returned (), w')
    ∧ (∀ e, PrepareRestrictions (containers w) = Raised e →
         cerr w' = cerr w ++ [line e] ∧ files w' = files w)
    ∧ (∀ c1 e,
         PrepareRestrictions (containers w) = Returned c1 →
         PrepareNodes c1 = Raised e →
         cerr w' = cerr w ++ [line e]
         ∧ (can_open w restrictions_file_name = true →
            restrictions_file_name ≠ output_file_name →
            files w' !! restrictions_file_name = Some (WriteRestrictions c1))
         ∧ (can_open w output_file_name = true →
            files w' !! output_file_name = Some fingerprint)
         ∧ (name_file_name ≠ restrictions_file_name →
            name_file_name ≠ output_file_name →
            files w' !! name_file_name = files w !! name_file_name))
    ∧ (∀ c1 c2 e,
         PrepareRestrictions (containers w) = Returned c1 →
         PrepareNodes c1 = Returned c2 →
         PrepareEdges c2 = Raised e →
         cerr w' = cerr w ++ [line e]
         ∧ (can_open w restrictions_file_name = true →
            restrictions_file_name ≠ output_file_name →
            files w' !! restrictions_file_name = Some (WriteRestrictions c1))
         ∧ (can_open w output_file_name = true →
            files w' !! output_file_name
            = Some (contents (WriteNodes c2 (write ofstream_open fingerprint))))
         ∧ (name_file_name ≠ restrictions_file_name →
            name_file_name ≠ output_file_name →
            files w' !! name_file_name = files w !! name_file_name))
    ∧ (∀ c1 c2 c3,
         PrepareRestrictions (containers w) = Returned c1 →
         PrepareNodes c1 = Returned c2 →
         PrepareEdges c2 = Returned c3 →
         cerr w' = cerr w).
Proof.
  intros line.
  destruct (PrepareData_run output_file_name restrictions_file_name name_file_name w)
    as (w' & Hrun & _ & Hcase).
  exists w'. split; [exact Hrun|].
  split; [|split; [|split]].
  - intros e He. rewrite He in Hcase. exact Hcase.
  - intros c1 e Hr1 Hr2. rewrite Hr1 in Hcase. cbn zeta in Hcase. rewrite Hr2 in Hcase.
    destruct Hcase as [Hcerr Hfiles]. split; [exact Hcerr|]. rewrite Hfiles.
    split; [|split].
    + intros Ho Hne. rewrite files_store_ne by exact Hne. by apply files_store_eq.
    + intros Ho. rewrite files_store_eq by (by rewrite can_open_store).
      by rewrite contents_write_open.
    + intros Hn1 Hn2. by rewrite !files_store_ne.
  - intros c1 c2 e Hr1 Hr2 Hr3. rewrite Hr1 in Hcase. cbn zeta in Hcase. rewrite Hr2 in Hcase.
    cbn zeta in Hcase. rewrite Hr3 in Hcase.
    destruct Hcase as [Hcerr Hfiles]. split; [exact Hcerr|]. rewrite Hfiles.
    split; [|split].
    + intros Ho Hne. rewrite !(files_store_ne output_file_name) by exact Hne.
      by apply files_store_eq.
    + intros Ho. apply files_store_eq. by rewrite !can_open_store.
    + intros Hn1 Hn2. by rewrite !files_store_ne.
  - intros c1 c2 c3 Hr1 Hr2 Hr3. rewrite Hr1 in Hcase. cbn zeta in Hcase. rewrite Hr2 in Hcase.
    cbn zeta in Hcase. rewrite Hr3 in Hcase. by destruct Hcase as [Hcerr _].
Qed.

(** C1, as stated, fails: with storage for four records the sort of the six
    used node ids raises, and [PrepareData] still returns normally; the
    restrictions file and the fingerprint of the main file are left on disk,
    the name file is never written. *)
Lemma PrepareData_returns_counterexample :
  let c1 := returned example_containers
              (@PrepareRestrictions (bounded_stxxl 4) example_containers) in
  let done := @PrepareData (bounded_stxxl 4) (constant_distance 111.2) packed_layout
                "map.osrm" "map.osrm.restrictions" "map.osrm.names" example_world in
  @PrepareNodes (bounded_stxxl 4) c1 = Raised {| what := "stxxl: out of external memory" |}
  ∧ fst done = Returned ()
  ∧ cerr (snd done) = ["Caught Execption:stxxl: out of external memory"]
  ∧ files (snd done) !! "map.osrm" = Some (@fingerprint packed_layout)
  ∧ files (snd done) !! "map.osrm.names" = None.
Proof. vm_compute. repeat split. Qed.

(** * Further properties of the code *)

(** ** PrepareNodes *)

Lemma unique_from_strict x l : StronglySorted N.lt (x :: l) → unique_from x l = x :: l.
Proof.
  revert x. induction l as [|y l IH]; intros x Hs; [reflexivity|].
  apply StronglySorted_inv in Hs as [Hs Hx]. apply Forall_inv in Hx as Hxy.
  cbn [unique_from]. destruct (N.eqb_spec x y) as [->|_]; [lia|].
  by rewrite IH.
Qed.

Lemma unique_strict l : StronglySorted N.lt l → unique l = l.
Proof. destruct l; [reflexivity | apply unique_from_strict]. Qed.

Lemma StronglySorted_lt_le (l : list N) : StronglySorted N.lt l → StronglySorted N.le l.
Proof.
  induction 1 as [|x l _ IH Hx]; constructor; [exact IH|].
  eapply Forall_impl; [exact Hx|]. intros y. cbn. lia.
Qed.

Global Instance N_le_antisymm : AntiSymm (=) N.le.
Proof. intros x y ??. lia. Qed.

(** X1: [PrepareNodes] leaves the used ids strictly ascending with the set of
    ids it found, the nodes sorted by id and a permutation of what they were,
    and every other container as it was. *)
Theorem PrepareNodes_postcondition `{ExternalSort} (c c' : ExtractionContainers) :
  PrepareNodes c = Returned c' →
  StronglySorted N.lt (used_node_id_list c')
  ∧ (list_to_set (used_node_id_list c') : gset N) = list_to_set (used_node_id_list c)
  ∧ StronglySorted (ordered ExternalMemoryNodeSTXXLCompare) (all_nodes_list c')
  ∧ all_nodes_list c' ≡ₚ all_nodes_list c
  ∧ all_edges_list c' = all_edges_list c
  ∧ name_list c' = name_list c
  ∧ restrictions_list c' = restrictions_list c
  ∧ way_start_end_id_list c' = way_start_end_id_list c.
Proof.
  intros Hp. destruct (PrepareNodes_spec c c' Hp) as (Hused & Hmem & Hnodes & Hperm & Hedges).
  split; [exact Hused|]. split.
  { apply set_eq. intros id. rewrite !elem_of_list_to_set. apply Hmem. }
  split; [exact Hnodes|]. split; [exact Hperm|]. split; [exact Hedges|].
  unfold PrepareNodes in Hp.
  destruct (stxxl_sort Cmp (used_node_id_list c)); [|discriminate]. cbn in Hp.
  destruct (stxxl_sort ExternalMemoryNodeSTXXLCompare (all_nodes_list c)); [|discriminate].
  cbn in Hp. injection Hp as <-. done.
Qed.

Lemma PrepareNodes_postcondition_witness :
  StronglySorted N.lt
    (used_node_id_list
       (returned example_containers (@PrepareNodes merge_stxxl example_containers))).
Proof.
  exact (proj1 (@PrepareNodes_postcondition merge_stxxl example_containers _ eq_refl)).
Defined.

(** X2: a second [PrepareNodes] changes neither the used ids nor the sequence
    of node ids, whatever the sort does with records that have equal keys. *)
Theorem PrepareNodes_twice `{ExternalSort} (c c1 c2 : ExtractionContainers) :
  PrepareNodes c = Returned c1 →
  PrepareNodes c1 = Returned c2 →
  used_node_id_list c2 = used_node_id_list c1
  ∧ node_id <$> all_nodes_list c2 = node_id <$> all_nodes_list c1.
Proof.
  intros H1 H2.
  destruct (PrepareNodes_spec c c1 H1) as (Hused1 & _ & Hnodes1 & _ & _).
  destruct (PrepareNodes_spec c1 c2 H2) as (_ & _ & Hnodes2 & Hperm2 & _).
  split.
  - unfold PrepareNodes in H2.
    destruct (stxxl_sort Cmp (used_node_id_list c1)) as [used|] eqn:Hs; [|discriminate].
    cbn in H2.
    destruct (stxxl_sort ExternalMemoryNodeSTXXLCompare (all_nodes_list c1)); [|discriminate].
    cbn in H2. injection H2 as <-. cbn.
    apply stxxl_sort_spec in Hs as [Hperm Hsorted].
    assert (used = used_node_id_list c1) as ->.
    { apply (StronglySorted_unique N.le); [exact Hsorted| |exact Hperm].
      by apply StronglySorted_lt_le. }
    by apply unique_strict.
  - apply (StronglySorted_unique N.le).
    + eapply (StronglySorted_fmap _ (ordered ExternalMemoryNodeSTXXLCompare)); [|exact Hnodes2].
      intros x y Hxy. exact Hxy.
    + eapply (StronglySorted_fmap _ (ordered ExternalMemoryNodeSTXXLCompare)); [|exact Hnodes1].
      intros x y Hxy. exact Hxy.
    + by rewrite Hperm2.
Qed.

Lemma PrepareNodes_twice_witness :
  let c1 := returned example_containers (@PrepareNodes reversing_stxxl example_containers) in
  let c2 := returned c1 (@PrepareNodes reversing_stxxl c1) in
  used_node_id_list c2 = used_node_id_list c1.
Proof.
  intros c1 c2.
  exact (proj1 (@PrepareNodes_twice reversing_stxxl example_containers c1 c2 eq_refl eq_refl)).
Defined.

(** ** WriteNodes *)

Lemma omap_ext_Forall {A B} (f g : A → option B) (l : list A) :
  Forall (λ x, f x = g x) l → omap f l = omap g l.
Proof.
  induction 1 as [|x l Hx _ IH]; [reflexivity|].
  cbn [omap list_omap]. by rewrite Hx, IH.
Qed.

(** On sorted inputs the write loop pairs every used id with the first node
    that has it. *)
Lemma joined_nodes_written ids nodes :
  StronglySorted N.lt ids →
  StronglySorted (ordered ExternalMemoryNodeSTXXLCompare) nodes →
  joined_nodes ids nodes = written_nodes ids nodes.
Proof.
  unfold written_nodes, matched_node.
  intros Hids. revert nodes.
  induction Hids as [|id ids Hids IH Hid]; intros nodes Hnodes.
  { by destruct nodes. }
  induction Hnodes as [|n nodes Hnodes IHn Hn].
  { cbn. clear. induction ids as [|x ids IH]; [reflexivity | exact IH]. }
  rewrite joined_nodes_cons. rewrite Forall_forall in Hid.
  destruct (N.ltb_spec id (node_id n)) as [Hlt|Hge].
  - cbn [omap list_omap]. rewrite first_match_above.
    2: { constructor; [exact Hlt|]. eapply Forall_impl; [exact Hn|].
         unfold ordered. cbn. intros; lia. }
    apply IH. by constructor.
  - destruct (N.ltb_spec (node_id n) id) as [Hlt'|Hge'].
    + rewrite IHn. apply omap_ext_Forall. constructor.
      * rewrite first_match_skip by (cbn; lia). reflexivity.
      * apply Forall_forall. intros x Hx. specialize (Hid x Hx).
        rewrite first_match_skip by (cbn; lia). reflexivity.
    + cbn [omap list_omap]. rewrite first_match_head by (cbn; lia).
      f_equal. rewrite IH by assumption.
      apply omap_ext_Forall, Forall_forall. intros x Hx.
      specialize (Hid x Hx). rewrite first_match_skip by (cbn; lia). reflexivity.
Qed.

Lemma written_nodes_ids ids nodes :
  node_id <$> written_nodes ids nodes = filter (λ id, id ∈ node_id <$> nodes) ids.
Proof.
  unfold written_nodes, matched_node. induction ids as [|id ids IH]; [reflexivity|].
  cbn [omap list_omap].
  destruct (first_match _ id nodes) as [n|] eqn:Hm.
  - apply first_match_Some in Hm as Hn. destruct Hn as [Hin Hk]. cbn in Hk.
    rewrite fmap_cons, IH, filter_cons_True.
    2: { rewrite <- Hk. by apply list_elem_of_fmap_2. }
    by rewrite Hk.
  - apply (first_match_None ExternalMemoryNodeSTXXLCompare) in Hm.
    rewrite filter_cons_False by exact Hm. exact IH.
Qed.

Lemma StronglySorted_filter {A} (R : relation A) (P : A → Prop) `{!∀ x, Decision (P x)} l :
  StronglySorted R l → StronglySorted R (filter P l).
Proof.
  induction 1 as [|x l _ IH Hx]; [constructor|].
  destruct (decide (P x)).
  - rewrite filter_cons_True by done. constructor; [exact IH|].
    apply Forall_forall. intros y Hy. apply list_elem_of_filter in Hy as [_ Hy].
    rewrite Forall_forall in Hx. by apply Hx.
  - by rewrite filter_cons_False.
Qed.

(** X3: after [PrepareNodes], [WriteNodes] makes the main file the
    fingerprint, the count field and, for every used id in ascending order,
    the record of the first node with that id (used ids that no node has are
    passed over, further records of a node are not written); it leaves the put
    position at the end of the file. Every record written is a node of the
    input whose id is a used id, and the file has the size that the count
    announces. *)
Theorem WriteNodes_records `{ExternalSort} `{Layout} (c c' : ExtractionContainers) :
  PrepareNodes c = Returned c' →
  let written := written_nodes (used_node_id_list c') (all_nodes_list c') in
  let s := WriteNodes c' (write ofstream_open fingerprint) in
  contents s
    = fingerprint ++ bytes_of_unsigned (N.of_nat (length written) mod 2 ^ 32)
        ++ mjoin (bytes_of_ExternalMemoryNode <$> written)
  ∧ put s = length (contents s)
  ∧ length (contents s)
    = (sizeof_FingerPrint + 4 + length written * sizeof_ExternalMemoryNode)%nat
  ∧ StronglySorted N.lt (node_id <$> written)
  ∧ ∀ n, n ∈ written → n ∈ all_nodes_list c ∧ node_id n ∈ used_node_id_list c.
Proof.
  intros Hp written s.
  destruct (PrepareNodes_spec c c' Hp) as (Hused & Hmem & Hnodes & Hperm & _).
  assert (Hs : s = stream_at_end
                     (fingerprint
                        ++ bytes_of_unsigned (N.of_nat (length written) mod 2 ^ 32)
                        ++ mjoin (bytes_of_ExternalMemoryNode <$> written))).
  { subst s written. rewrite WriteNodes_stream.
    by rewrite joined_nodes_written. }
  rewrite Hs. cbn [contents put stream_at_end].
  split; [reflexivity|]. split; [reflexivity|]. split; [|split].
  - rewrite !length_app, length_bytes_of_unsigned.
    rewrite (length_mjoin_fixed _ sizeof_ExternalMemoryNode)
      by apply length_bytes_of_ExternalMemoryNode.
    unfold sizeof_FingerPrint. lia.
  - subst written. rewrite written_nodes_ids. by apply StronglySorted_filter.
  - intros n Hn. subst written. unfold written_nodes in Hn.
    apply list_elem_of_omap in Hn as (id & Hid & Hm).
    apply first_match_Some in Hm as [Hin Hk]. cbn in Hk.
    split; [by rewrite <- Hperm|]. rewrite Hk. by apply Hmem.
Qed.

Lemma WriteNodes_records_witness :
  let c' := returned example_containers (@PrepareNodes merge_stxxl example_containers) in
  length (contents (@WriteNodes packed_layout c'
                      (write ofstream_open (@fingerprint packed_layout))))
  = (8 + 4 + 3 * 14)%nat.
Proof.
  intros c'.
  exact (proj1 (proj2 (proj2
           (@WriteNodes_records merge_stxxl packed_layout example_containers c' eq_refl)))).
Defined.

(** ** PrepareEdges, edge by edge *)

Lemma StronglySorted_ordered_keys {A} (cmp : comparator A) (l : list A) :
  StronglySorted (ordered cmp) l ↔ StronglySorted N.le (key cmp <$> l).
Proof.
  induction l as [|x l IH]; [split; constructor|].
  rewrite fmap_cons. split; intros Hs; apply StronglySorted_inv in Hs as [Hs Hx];
    (constructor; [by apply IH|]).
  - rewrite Forall_fmap. exact Hx.
  - rewrite Forall_fmap in Hx. exact Hx.
Qed.

Section merge_update_invariant.
Context {X Y B : Type} (cx : comparator X) (cy : comparator Y) (f : Y → X → X).

(** A field that the update does not assign is the same in every record,
    sorted lists or not. *)
Lemma merge_update_fmap (g : X → B) xs ys :
  (∀ y x, g (f y x) = g x) →
  g <$> merge_update cx cy f xs ys = g <$> xs.
Proof.
  intros Hg. pose proof (merge_update_pointwise cx cy f xs ys) as H2.
  induction H2 as [|x x' xs xs' Hx _ IH]; [reflexivity|].
  rewrite !fmap_cons, IH. f_equal.
  destruct Hx as [->|(y & _ & _ & ->)]; [reflexivity | apply Hg].
Qed.
End merge_update_invariant.

Lemma assign_weight_edge_input `{CoordinateCalculation} n e :
  edge_input (assign_weight n e) = edge_input e.
Proof. unfold assign_weight. destruct (source_coordinate_is_set e); reflexivity. Qed.

Lemma assign_weight_source_coordinate `{CoordinateCalculation} n e :
  source_coordinate (assign_weight n e) = source_coordinate e.
Proof. unfold assign_weight. destruct (source_coordinate_is_set e); reflexivity. Qed.

Lemma is_fresh_not_set e : is_fresh e → source_coordinate_is_set e = false.
Proof. intros [_ Hc]. unfold source_coordinate_is_set. rewrite Hc. reflexivity. Qed.

(** X4: [PrepareEdges] neither drops nor adds nor duplicates an edge and
    assigns nothing but source coordinates and weights: the edges it leaves
    are, in the fields it never assigns, a permutation of the edges it found,
    and they are sorted by target. The nodes need not even be sorted for
    this. *)
Theorem PrepareEdges_keeps_edges `{ExternalSort} `{CoordinateCalculation}
    (c c' : ExtractionContainers) :
  PrepareEdges c = Returned c' →
  edge_input <$> all_edges_list c' ≡ₚ edge_input <$> all_edges_list c
  ∧ StronglySorted (ordered CmpEdgeByTargetID) (all_edges_list c')
  ∧ used_node_id_list c' = used_node_id_list c
  ∧ all_nodes_list c' = all_nodes_list c
  ∧ restrictions_list c' = restrictions_list c.
Proof.
  unfold PrepareEdges. intros Hp.
  destruct (stxxl_sort CmpEdgeByStartID (all_edges_list c)) as [by_start|] eqn:Hs1;
    [|discriminate].
  cbn in Hp.
  destruct (stxxl_sort CmpEdgeByTargetID (set_start_coords by_start (all_nodes_list c)))
    as [by_target|] eqn:Hs2; [|discriminate].
  cbn in Hp. injection Hp as <-.
  cbn [all_edges_list all_nodes_list used_node_id_list restrictions_list with_all_edges].
  apply stxxl_sort_spec in Hs1 as [Hperm1 _].
  apply stxxl_sort_spec in Hs2 as [Hperm2 Hsorted2].
  split; [|split; [|done]].
  - rewrite compute_weights_merge, merge_update_fmap by apply assign_weight_edge_input.
    rewrite Hperm2, set_start_coords_merge, merge_update_fmap by reflexivity.
    by rewrite Hperm1.
  - apply StronglySorted_ordered_keys.
    rewrite compute_weights_merge.
    rewrite (merge_update_fmap _ _ _ (key CmpEdgeByTargetID))
      by apply assign_weight_target.
    by apply StronglySorted_ordered_keys.
Qed.

Lemma PrepareEdges_keeps_edges_witness :
  let c1 := returned example_containers (@PrepareNodes merge_stxxl example_containers) in
  let c2 := returned c1 (@PrepareEdges merge_stxxl (constant_distance 111.2) c1) in
  StronglySorted (ordered CmpEdgeByTargetID) (all_edges_list c2).
Proof.
  intros c1 c2.
  exact (proj1 (proj2
           (@PrepareEdges_keeps_edges merge_stxxl (constant_distance 111.2) c1 c2 eq_refl))).
Defined.

(** With sorted nodes [PrepareEdges] is a map over the edges, up to the order
    the last sort leaves. *)
Lemma PrepareEdges_prepare_edge `{ExternalSort} `{CoordinateCalculation} c c' :
  StronglySorted (ordered ExternalMemoryNodeSTXXLCompare) (all_nodes_list c) →
  PrepareEdges c = Returned c' →
  all_edges_list c' ≡ₚ prepare_edge (all_nodes_list c) <$> all_edges_list c.
Proof.
  intros Hnodes Hp.
  destruct (PrepareEdges_spec c c' Hnodes Hp) as (by_start & by_target & Hs1 & Hs2 & Hout & _).
  apply stxxl_sort_spec in Hs1 as [Hperm1 _].
  apply stxxl_sort_spec in Hs2 as [Hperm2 _].
  rewrite Hout, Hperm2, <- list_fmap_compose. by rewrite Hperm1.
Qed.

Lemma attach_source_source_coordinate nodes e :
  source_coordinate (attach_source nodes e)
  = match matched_node (source (result e)) nodes with
    | Some n => {| coord_lat := lat n; coord_lon := lon n |}
    | None => source_coordinate e
    end.
Proof.
  unfold attach_source, update_from, matched_node. cbn [key CmpEdgeByStartID].
  destruct (first_match _ _ nodes); reflexivity.
Qed.

Lemma attach_source_edge_input nodes e : edge_input (attach_source nodes e) = edge_input e.
Proof.
  unfold attach_source, update_from. destruct (first_match _ _ nodes); reflexivity.
Qed.

Lemma attach_weight_edge_input `{CoordinateCalculation} nodes e :
  edge_input (attach_weight nodes e) = edge_input e.
Proof.
  unfold attach_weight, update_from.
  destruct (first_match _ _ nodes); [apply assign_weight_edge_input | reflexivity].
Qed.

Lemma attach_weight_source_coordinate `{CoordinateCalculation} nodes e :
  source_coordinate (attach_weight nodes e) = source_coordinate e.
Proof.
  unfold attach_weight, update_from.
  destruct (first_match _ _ nodes); [apply assign_weight_source_coordinate | reflexivity].
Qed.

(** X5: with the nodes sorted, every edge leaves [PrepareEdges] with the
    coordinate of the first node that has the id of its source, and with the
    source coordinate it came with when no node has that id. *)
Theorem PrepareEdges_source_coordinate `{ExternalSort} `{CoordinateCalculation}
    (c c' : ExtractionContainers) :
  StronglySorted (ordered ExternalMemoryNodeSTXXLCompare) (all_nodes_list c) →
  PrepareEdges c = Returned c' →
  ∀ e', e' ∈ all_edges_list c' →
    ∃ e, e ∈ all_edges_list c
         ∧ edge_input e' = edge_input e
         ∧ source_coordinate e'
           = match matched_node (source (result e)) (all_nodes_list c) with
             | Some n => {| coord_lat := lat n; coord_lon := lon n |}
             | None => source_coordinate e
             end.
Proof.
  intros Hnodes Hp e' He'.
  rewrite (PrepareEdges_prepare_edge c c' Hnodes Hp) in He'.
  apply list_elem_of_fmap in He' as (e & -> & He).
  exists e. split; [exact He|]. unfold prepare_edge. split.
  - by rewrite attach_weight_edge_input, attach_source_edge_input.
  - by rewrite attach_weight_source_coordinate, attach_source_source_coordinate.
Qed.

Lemma PrepareEdges_source_coordinate_witness :
  let c1 := returned example_containers (@PrepareNodes merge_stxxl example_containers) in
  let c2 := returned c1 (@PrepareEdges merge_stxxl (constant_distance 111.2) c1) in
  ∃ e, e ∈ all_edges_list c1
       ∧ edge_input (set_weight (set_source_coordinate (example_edge 5 9 EDGE_DURATION 5)
                                   2000000 0) 50) = edge_input e
       ∧ {| coord_lat := 2000000; coord_lon := 0 |}
         = match matched_node (source (result e)) (all_nodes_list c1) with
           | Some n => {| coord_lat := lat n; coord_lon := lon n |}
           | None => source_coordinate e
           end.
Proof.
  intros c1 c2.
  apply (@PrepareEdges_source_coordinate merge_stxxl (constant_distance 111.2) c1 c2
           example_nodes_sorted eq_refl).
  apply (list_elem_of_lookup_2 _ 3). reflexivity.
Defined.

(** Where an edge that leaves [PrepareEdges] comes from, sorted nodes or not:
    an edge of the input, perhaps given the coordinate of a node with the id
    of its source, then perhaps weighed against a node with the id of its
    target. *)
Lemma PrepareEdges_trace `{ExternalSort} `{CoordinateCalculation} c c' e' :
  PrepareEdges c = Returned c' →
  e' ∈ all_edges_list c' →
  ∃ e1 e3,
    e1 ∈ all_edges_list c
    ∧ (e3 = e1
       ∨ ∃ n, n ∈ all_nodes_list c ∧ node_id n = source (result e1)
              ∧ e3 = set_source_coordinate e1 (lat n) (lon n))
    ∧ (e' = e3
       ∨ ∃ m, m ∈ all_nodes_list c ∧ node_id m = target (result e3)
              ∧ e' = assign_weight m e3).
Proof.
  unfold PrepareEdges. intros Hp He'.
  destruct (stxxl_sort CmpEdgeByStartID (all_edges_list c)) as [by_start|] eqn:Hs1;
    [|discriminate].
  cbn in Hp.
  destruct (stxxl_sort CmpEdgeByTargetID (set_start_coords by_start (all_nodes_list c)))
    as [by_target|] eqn:Hs2; [|discriminate].
  cbn in Hp. injection Hp as <-. cbn [all_edges_list all_nodes_list with_all_edges] in He'.
  apply stxxl_sort_spec in Hs1 as [Hperm1 _].
  apply stxxl_sort_spec in Hs2 as [Hperm2 _].
  rewrite compute_weights_merge in He'.
  apply list_elem_of_lookup_1 in He' as [i Hi].
  destruct (Forall2_lookup_r _ _ _ _ _
              (merge_update_pointwise CmpEdgeByTargetID ExternalMemoryNodeSTXXLCompare
                 assign_weight by_target (all_nodes_list c)) Hi)
    as (e3 & H3 & Hweight).
  apply list_elem_of_lookup_2 in H3. rewrite Hperm2, set_start_coords_merge in H3.
  apply list_elem_of_lookup_1 in H3 as [j Hj].
  destruct (Forall2_lookup_r _ _ _ _ _
              (merge_update_pointwise CmpEdgeByStartID ExternalMemoryNodeSTXXLCompare
                 (λ n e, set_source_coordinate e (lat n) (lon n))
                 by_start (all_nodes_list c)) Hj)
    as (e1 & He1 & Hsource).
  apply list_elem_of_lookup_2 in He1. rewrite Hperm1 in He1.
  exists e1, e3. split; [exact He1|]. split.
  - destruct Hsource as [->|(n & Hn & Hk & ->)]; [by left|].
    right. exists n. cbn in Hk. done.
  - destruct Hweight as [->|(m & Hm & Hk & ->)]; [by left|].
    right. exists m. cbn in Hk. done.
Qed.

(** X6: whatever the order of the nodes, an edge whose source is the id of no
    node leaves [PrepareEdges] exactly as it was appended (no coordinate, no
    weight, even when its target is the id of a node), and [WriteEdges] does
    not let it through. The edges are taken as the callbacks append them:
    weight 0 and the source coordinate at its sentinel. *)
Theorem unresolved_source_skipped `{ExternalSort} `{CoordinateCalculation}
    (c c' : ExtractionContainers) :
  PrepareEdges c = Returned c' →
  Forall is_fresh (all_edges_list c) →
  ∀ e', e' ∈ all_edges_list c' →
    source (result e') ∉ node_id <$> all_nodes_list c →
    e' ∈ all_edges_list c ∧ is_fresh e' ∧ e' ∉ used_edges (all_edges_list c').
Proof.
  intros Hp Hfresh e' He' Hsource.
  destruct (PrepareEdges_trace c c' e' Hp He') as (e1 & e3 & He1 & H13 & H3').
  rewrite Forall_forall in Hfresh. specialize (Hfresh e1 He1).
  assert (Hsame : e' = e1).
  { assert (Hs' : source (result e') = source (result e3)).
    { destruct H3' as [->|(m & _ & _ & ->)]; [reflexivity|].
      unfold assign_weight. destruct (source_coordinate_is_set e3); reflexivity. }
    destruct H13 as [->|(n & Hn & Hk & ->)].
    - destruct H3' as [->|(m & _ & _ & ->)]; [reflexivity|].
      unfold assign_weight. by rewrite (is_fresh_not_set _ Hfresh).
    - exfalso. apply Hsource. rewrite Hs'. cbn. rewrite <- Hk.
      by apply list_elem_of_fmap_2. }
  subst e'. split; [exact He1|]. split; [exact Hfresh|].
  unfold used_edges. rewrite list_elem_of_In, filter_In.
  destruct Hfresh as [-> _]. intros [_ ?]. discriminate.
Qed.

Lemma unresolved_source_skipped_witness :
  let c1 := returned example_containers (@PrepareNodes merge_stxxl example_containers) in
  let c2 := returned c1 (@PrepareEdges merge_stxxl (constant_distance 111.2) c1) in
  example_edge 98 4 WAY_DURATION 7 ∉ used_edges (all_edges_list c2).
Proof.
  intros c1 c2.
  refine (proj2 (proj2
            (@unresolved_source_skipped merge_stxxl (constant_distance 111.2) c1 c2
               eq_refl _ (example_edge 98 4 WAY_DURATION 7) _ _))).
  - repeat constructor.
  - apply (list_elem_of_lookup_2 _ 1). reflexivity.
  - apply (bool_decide_unpack _). vm_compute. exact I.
Defined.

Lemma matched_node_is_Some id nodes :
  is_Some (matched_node id nodes) ↔ id ∈ node_id <$> nodes.
Proof.
  unfold matched_node.
  pose proof (first_match_None ExternalMemoryNodeSTXXLCompare id nodes) as Hn.
  cbn in Hn. destruct (first_match _ id nodes) as [n|] eqn:Hm.
  - split; [intros _ | by eexists].
    destruct (decide (id ∈ node_id <$> nodes)) as [|Hnot]; [done|].
    apply Hn in Hnot. discriminate.
  - split; [intros [? ?]; discriminate|].
    intros Hin. exfalso. by apply (proj1 Hn).
Qed.

(** What [PrepareEdges] makes of a fresh edge. *)
Lemma prepare_edge_weight `{CoordinateCalculation} nodes e :
  Forall has_coordinate nodes →
  is_fresh e →
  let e' := prepare_edge nodes e in
  ((0 < weight (result e'))%Z
   ↔ source (result e) ∈ node_id <$> nodes ∧ target (result e) ∈ node_id <$> nodes)
  ∧ (0 ≤ weight (result e') ≤ INT_MAX)%Z.
Proof.
  intros Hnodes Hfresh e'. subst e'. unfold prepare_edge.
  rewrite <- !matched_node_is_Some.
  assert (Hsrc : ∀ e1, e1 = attach_source nodes e →
            result e1 = result e
            ∧ (source_coordinate_is_set e1 = true
               ↔ is_Some (matched_node (source (result e)) nodes))).
  { intros e1 ->. split; [apply attach_source_result|].
    unfold attach_source, update_from, matched_node. cbn [key CmpEdgeByStartID].
    destruct (first_match _ _ nodes) as [n|] eqn:Hm.
    - apply first_match_Some in Hm as [Hin _].
      rewrite Forall_forall in Hnodes. destruct (Hnodes n Hin) as [Hlat Hlon].
      split; [by eexists | intros _].
      unfold source_coordinate_is_set. cbn.
      apply andb_true_iff. rewrite !negb_true_iff. split; by apply Z.eqb_neq.
    - rewrite (is_fresh_not_set _ Hfresh). split; [discriminate | intros [? ?]; discriminate]. }
  destruct (Hsrc _ eq_refl) as [Hres Hset]. clear Hsrc.
  set (e1 := attach_source nodes e) in *.
  unfold attach_weight, update_from, matched_node in *. cbn [key CmpEdgeByTargetID] in *.
  rewrite Hres.
  destruct (first_match ExternalMemoryNodeSTXXLCompare (target (result e)) nodes)
    as [m|] eqn:Hm.
  - unfold assign_weight.
    destruct (source_coordinate_is_set e1) eqn:Hs1.
    + cbn [result set_weight weight].
      pose proof (integer_weight_bounds
        (edge_weight
           (euclidean_distance (coord_lat (source_coordinate e1))
              (coord_lon (source_coordinate e1)) (lat m) (lon m))
           (weight_data e1))) as Hb.
      split; [|lia]. split; [intros _; split; [by apply Hset | by eexists] | lia].
    + rewrite Hres. destruct Hfresh as [-> _]. split; [|unfold INT_MAX; lia].
      split; [lia|]. intros [Hsome _]. apply Hset in Hsome. discriminate.
  - rewrite Hres. destruct Hfresh as [-> _]. split; [|unfold INT_MAX; lia].
    split; [lia|]. intros [_ [? ?]]. discriminate.
Qed.

(** X7: with the nodes sorted, none of them at the sentinel coordinate, and
    the edges as the callbacks append them, the edges [WriteEdges] lets
    through are exactly those whose source and target are both ids of nodes;
    every weight written is between 1 and [INT_MAX], whatever the speed or
    duration (negative, zero, infinite or not a number). *)
Theorem used_edges_both_endpoints `{ExternalSort} `{CoordinateCalculation}
    (c c' : ExtractionContainers) :
  StronglySorted (ordered ExternalMemoryNodeSTXXLCompare) (all_nodes_list c) →
  Forall has_coordinate (all_nodes_list c) →
  Forall is_fresh (all_edges_list c) →
  PrepareEdges c = Returned c' →
  ∀ e', e' ∈ all_edges_list c' →
    (e' ∈ used_edges (all_edges_list c')
     ↔ source (result e') ∈ node_id <$> all_nodes_list c
       ∧ target (result e') ∈ node_id <$> all_nodes_list c)
    ∧ (e' ∈ used_edges (all_edges_list c') → (1 ≤ weight (result e') ≤ INT_MAX)%Z).
Proof.
  intros Hsorted Hcoord Hfresh Hp e' He'.
  assert (Hused : e' ∈ used_edges (all_edges_list c') ↔ (0 < weight (result e'))%Z).
  { unfold used_edges. rewrite list_elem_of_In, filter_In, <- list_elem_of_In, Z.ltb_lt.
    tauto. }
  rewrite Hused.
  rewrite (PrepareEdges_prepare_edge c c' Hsorted Hp) in He'.
  apply list_elem_of_fmap in He' as (e & -> & He).
  rewrite Forall_forall in Hfresh.
  destruct (prepare_edge_weight (all_nodes_list c) e Hcoord (Hfresh e He)) as [Hiff Hb].
  assert (Hin : edge_input (prepare_edge (all_nodes_list c) e) = edge_input e).
  { unfold prepare_edge. by rewrite attach_weight_edge_input, attach_source_edge_input. }
  unfold edge_input in Hin. injection Hin as Hsrc Htgt _ _ _ _ _ _ _ _.
  rewrite Hsrc, Htgt. split; [exact Hiff | lia].
Qed.

Lemma used_edges_both_endpoints_witness :
  let c1 := returned example_containers (@PrepareNodes merge_stxxl example_containers) in
  let c2 := returned c1 (@PrepareEdges merge_stxxl (constant_distance 111.2) c1) in
  let e' := set_weight (set_source_coordinate (example_edge 3 5 SPEED 36) 0 0) 111 in
  e' ∈ used_edges (all_edges_list c2)
  ↔ source (result e') ∈ node_id <$> all_nodes_list c1
    ∧ target (result e') ∈ node_id <$> all_nodes_list c1.
Proof.
  intros c1 c2 e'.
  refine (proj1 (@used_edges_both_endpoints merge_stxxl (constant_distance 111.2) c1 c2
                   example_nodes_sorted _ _ eq_refl e' _)).
  - repeat constructor; discriminate.
  - repeat constructor.
  - apply (list_elem_of_lookup_2 _ 2). reflexivity.
Defined.

(** ** Pass B and PrepareRestrictions as a whole *)

Lemma fix_start_input w r : restriction_input (fix_start w r) = restriction_input r.
Proof.
  unfold fix_start.
  destruct (first_segment_source_id w =? _); [reflexivity|].
  destruct (last_segment_target_id w =? _); reflexivity.
Qed.

Lemma fix_end_input w r : restriction_input (fix_end w r) = restriction_input r.
Proof.
  unfold fix_end.
  destruct (first_segment_source_id w =? _); [reflexivity|].
  destruct (last_segment_target_id w =? _); reflexivity.
Qed.

Lemma fix_start_to w r : to (restriction (fix_start w r)) = to (restriction r).
Proof.
  unfold fix_start.
  destruct (first_segment_source_id w =? _); [reflexivity|].
  destruct (last_segment_target_id w =? _); reflexivity.
Qed.

Lemma fix_end_from w r : from (restriction (fix_end w r)) = from (restriction r).
Proof.
  unfold fix_end.
  destruct (first_segment_source_id w =? _); [reflexivity|].
  destruct (last_segment_target_id w =? _); reflexivity.
Qed.

Lemma fix_end_to_way w r :
  way (to (restriction (fix_end w r))) = way (to (restriction r)).
Proof.
  unfold fix_end.
  destruct (first_segment_source_id w =? _); [reflexivity|].
  destruct (last_segment_target_id w =? _); reflexivity.
Qed.

(** What Pass B computes on the ways as Pass A sorted them. *)
Lemma PassB_spec `{ExternalSort} c c' :
  StronglySorted (ordered FirstAndLastSegmentOfWayStxxlCompare) (way_start_end_id_list c) →
  PassB c = Returned c' →
  ∃ by_to,
    stxxl_sort CmpRestrictionContainerByTo (restrictions_list c) = Returned by_to
    ∧ restrictions_list c'
      = update_from CmpRestrictionContainerByTo FirstAndLastSegmentOfWayStxxlCompare
          fix_end (way_start_end_id_list c) <$> by_to
    ∧ way_start_end_id_list c' = way_start_end_id_list c.
Proof.
  unfold PassB. intros Hways Hp.
  destruct (stxxl_sort CmpRestrictionContainerByTo (restrictions_list c))
    as [by_to|] eqn:Hrs; [|discriminate].
  cbn in Hp. injection Hp as <-. cbn [restrictions_list way_start_end_id_list with_restrictions].
  exists by_to. split; [reflexivity|]. split; [|reflexivity].
  apply stxxl_sort_spec in Hrs as [_ Hrs].
  rewrite fix_restriction_ends_merge. by apply merge_update_sorted.
Qed.

(** X8: Pass B, on ways sorted by id (as Pass A leaves them): a restriction
    whose [to.way] is the way id of the matched way record leaves with
    [to.node = first_segment_target_id] when its [via.node] is the record's
    [first_segment_source_id], else with [to.node = last_segment_source_id]
    when its [via.node] is the record's [last_segment_target_id], and is left
    as it is otherwise; its [from] side and every other field are never
    touched. Restrictions are taken in the order the sort by [to.way] leaves
    them in. *)
Theorem PassB_to_node `{ExternalSort} (c c' : ExtractionContainers) :
  StronglySorted (ordered FirstAndLastSegmentOfWayStxxlCompare) (way_start_end_id_list c) →
  PassB c = Returned c' →
  ∃ by_to,
    stxxl_sort CmpRestrictionContainerByTo (restrictions_list c) = Returned by_to
    ∧ ∀ (i : nat) r w,
        by_to !! i = Some r →
        matched_way (way (to (restriction r))) (way_start_end_id_list c) = Some w →
        way_id w = way (to (restriction r))
        ∧ ∃ r', restrictions_list c' !! i = Some r'
          ∧ restriction_input r' = restriction_input r
          ∧ from (restriction r') = from (restriction r)
          ∧ (node (via (restriction r)) = first_segment_source_id w →
             node (to (restriction r')) = first_segment_target_id w)
          ∧ (node (via (restriction r)) ≠ first_segment_source_id w →
             node (via (restriction r)) = last_segment_target_id w →
             node (to (restriction r')) = last_segment_source_id w)
          ∧ (node (via (restriction r)) ≠ first_segment_source_id w →
             node (via (restriction r)) ≠ last_segment_target_id w →
             r' = r).
Proof.
  intros Hways Hp. destruct (PassB_spec c c' Hways Hp) as (by_to & Hsort & Hrs & _).
  exists by_to. split; [exact Hsort|].
  intros i r w Hi Hw.
  split; [apply first_match_Some in Hw as [_ Hk]; exact Hk|].
  exists (fix_end w r). split.
  { rewrite Hrs, list_lookup_fmap, Hi. cbn. unfold update_from.
    unfold matched_way in Hw. cbn in Hw |- *. rewrite Hw. reflexivity. }
  unfold fix_end, restriction_input.
  destruct (N.eqb_spec (first_segment_source_id w) (node (via (restriction r)))) as [E1|E1];
    [|destruct (N.eqb_spec (last_segment_target_id w) (node (via (restriction r))))
        as [E2|E2]];
    cbn [restriction set_to_node via from to is_only way node];
    repeat (split || intro); try reflexivity; congruence.
Qed.

Lemma PassB_to_node_witness :
  let c1 := returned example_containers (@PassA merge_stxxl example_containers) in
  let c2 := returned c1 (@PassB merge_stxxl c1) in
  (λ r, node (to (restriction r))) <$> restrictions_list c2 !! 0%nat = Some 2.
Proof.
  intros c1 c2.
  assert (Hways : StronglySorted (ordered FirstAndLastSegmentOfWayStxxlCompare)
                    (way_start_end_id_list c1)).
  { apply (bool_decide_unpack _). vm_compute. exact I. }
  destruct (@PassB_to_node merge_stxxl c1 c2 Hways eq_refl) as (by_to & Hsort & Hall).
  vm_compute in Hsort. injection Hsort as <-.
  destruct (Hall 0%nat (example_restriction 77 1 10) way_10 eq_refl eq_refl)
    as (_ & r' & Hr' & _ & _ & Hfirst & _).
  exact (eq_trans (f_equal (fmap (λ r, node (to (restriction r)))) Hr')
           (f_equal Some (Hfirst eq_refl))).
Defined.

(** X9: [PrepareRestrictions] neither drops nor adds a restriction and
    assigns nothing but [from.node] and [to.node]: in the fields it never
    assigns, the restrictions it leaves are a permutation of those it found;
    it leaves them sorted by [to.way], the ways sorted by id and a permutation
    of what they were, and the nodes, edges and names as they were. *)
Theorem PrepareRestrictions_keeps_restrictions `{ExternalSort}
    (c c' : ExtractionContainers) :
  PrepareRestrictions c = Returned c' →
  restriction_input <$> restrictions_list c' ≡ₚ restriction_input <$> restrictions_list c
  ∧ StronglySorted (ordered CmpRestrictionContainerByTo) (restrictions_list c')
  ∧ StronglySorted (ordered FirstAndLastSegmentOfWayStxxlCompare) (way_start_end_id_list c')
  ∧ way_start_end_id_list c' ≡ₚ way_start_end_id_list c
  ∧ used_node_id_list c' = used_node_id_list c
  ∧ all_nodes_list c' = all_nodes_list c
  ∧ all_edges_list c' = all_edges_list c
  ∧ name_list c' = name_list c.
Proof.
  unfold PrepareRestrictions, PassA, PassB. intros Hp.
  destruct (stxxl_sort FirstAndLastSegmentOfWayStxxlCompare (way_start_end_id_list c))
    as [ways|] eqn:Hw; [|discriminate].
  cbn in Hp.
  destruct (stxxl_sort CmpRestrictionContainerByFrom (restrictions_list c))
    as [by_from|] eqn:Hf; [|discriminate].
  cbn in Hp.
  destruct (stxxl_sort CmpRestrictionContainerByTo (fix_restriction_starts by_from ways))
    as [by_to|] eqn:Ht; [|discriminate].
  cbn in Hp. injection Hp as <-. cbn.
  apply stxxl_sort_spec in Hw as [Hpw Hsw].
  apply stxxl_sort_spec in Hf as [Hpf _].
  apply stxxl_sort_spec in Ht as [Hpt Hst].
  split; [|split; [|done]].
  - rewrite fix_restriction_ends_merge, merge_update_fmap by apply fix_end_input.
    rewrite Hpt, fix_restriction_starts_merge, merge_update_fmap by apply fix_start_input.
    by rewrite Hpf.
  - apply StronglySorted_ordered_keys.
    rewrite fix_restriction_ends_merge.
    rewrite (merge_update_fmap _ _ _ (key CmpRestrictionContainerByTo)).
    + by apply StronglySorted_ordered_keys.
    + intros w r. apply fix_end_to_way.
Qed.

Lemma PrepareRestrictions_keeps_restrictions_witness :
  let c' := returned example_containers
              (@PrepareRestrictions merge_stxxl example_containers) in
  StronglySorted (ordered CmpRestrictionContainerByTo) (restrictions_list c').
Proof.
  intros c'.
  exact (proj1 (proj2
           (@PrepareRestrictions_keeps_restrictions merge_stxxl example_containers c'
              eq_refl))).
Defined.

(** Where a restriction that leaves [PrepareRestrictions] comes from: a
    restriction of the input, perhaps fixed at its start from a way record
    with its [from.way], then perhaps fixed at its end from a way record with
    its [to.way]. *)
Lemma PrepareRestrictions_trace `{ExternalSort} c c' r' :
  PrepareRestrictions c = Returned c' →
  r' ∈ restrictions_list c' →
  ∃ r0 r1,
    r0 ∈ restrictions_list c
    ∧ (r1 = r0
       ∨ ∃ w, w ∈ way_start_end_id_list c ∧ way_id w = way (from (restriction r0))
              ∧ r1 = fix_start w r0)
    ∧ (r' = r1
       ∨ ∃ w, w ∈ way_start_end_id_list c ∧ way_id w = way (to (restriction r1))
              ∧ r' = fix_end w r1).
Proof.
  unfold PrepareRestrictions, PassA, PassB. intros Hp Hr'.
  destruct (stxxl_sort FirstAndLastSegmentOfWayStxxlCompare (way_start_end_id_list c))
    as [ways|] eqn:Hw; [|discriminate].
  cbn in Hp.
  destruct (stxxl_sort CmpRestrictionContainerByFrom (restrictions_list c))
    as [by_from|] eqn:Hf; [|discriminate].
  cbn in Hp.
  destruct (stxxl_sort CmpRestrictionContainerByTo (fix_restriction_starts by_from ways))
    as [by_to|] eqn:Ht; [|discriminate].
  cbn in Hp. injection Hp as <-. cbn in Hr'.
  apply stxxl_sort_spec in Hw as [Hpw _].
  apply stxxl_sort_spec in Hf as [Hpf _].
  apply stxxl_sort_spec in Ht as [Hpt _].
  rewrite fix_restriction_ends_merge in Hr'.
  apply list_elem_of_lookup_1 in Hr' as [i Hi].
  destruct (Forall2_lookup_r _ _ _ _ _
              (merge_update_pointwise CmpRestrictionContainerByTo
                 FirstAndLastSegmentOfWayStxxlCompare fix_end by_to ways) Hi)
    as (r1 & H1' & Hend).
  apply list_elem_of_lookup_2 in H1'. rewrite Hpt, fix_restriction_starts_merge in H1'.
  apply list_elem_of_lookup_1 in H1' as [j Hj].
  destruct (Forall2_lookup_r _ _ _ _ _
              (merge_update_pointwise CmpRestrictionContainerByFrom
                 FirstAndLastSegmentOfWayStxxlCompare fix_start by_from ways) Hj)
    as (r0 & H0' & Hstart).
  apply list_elem_of_lookup_2 in H0'. rewrite Hpf in H0'.
  exists r0, r1. split; [exact H0'|]. split.
  - destruct Hstart as [->|(w & Hin & Hk & ->)]; [by left|].
    right. exists w. rewrite Hpw in Hin. cbn in Hk. done.
  - destruct Hend as [->|(w & Hin & Hk & ->)]; [by left|].
    right. exists w. rewrite Hpw in Hin. cbn in Hk. done.
Qed.

Lemma fix_end_via w r : via (restriction (fix_end w r)) = via (restriction r).
Proof.
  unfold fix_end.
  destruct (first_segment_source_id w =? _); [reflexivity|].
  destruct (last_segment_target_id w =? _); reflexivity.
Qed.

Lemma fix_start_changed w r :
  way_id w = way (from (restriction r)) →
  node (from (restriction (fix_start w r))) ≠ node (from (restriction r)) →
  from_resolved_by w (fix_start w r).
Proof.
  intros Hk. unfold from_resolved_by, fix_start.
  destruct (N.eqb_spec (first_segment_source_id w) (node (via (restriction r)))) as [E1|E1].
  { intros _. cbn. split; [exact Hk | by left]. }
  destruct (N.eqb_spec (last_segment_target_id w) (node (via (restriction r)))) as [E2|E2].
  { intros _. cbn. split; [exact Hk | by right]. }
  intros Hne. by destruct Hne.
Qed.

Lemma fix_end_changed w r :
  way_id w = way (to (restriction r)) →
  node (to (restriction (fix_end w r))) ≠ node (to (restriction r)) →
  to_resolved_by w (fix_end w r).
Proof.
  intros Hk. unfold to_resolved_by, fix_end.
  destruct (N.eqb_spec (first_segment_source_id w) (node (via (restriction r)))) as [E1|E1].
  { intros _. cbn. split; [exact Hk | by left]. }
  destruct (N.eqb_spec (last_segment_target_id w) (node (via (restriction r)))) as [E2|E2].
  { intros _. cbn. split; [exact Hk | by right]. }
  intros Hne. by destruct Hne.
Qed.

(** A restriction that comes out usable was resolved on both sides. *)
Lemma usable_restriction_resolved `{ExternalSort} c c' r' :
  PrepareRestrictions c = Returned c' →
  Forall is_unresolved (restrictions_list c) →
  r' ∈ restrictions_list c' →
  is_usable r' = true →
  ∃ wf wt,
    wf ∈ way_start_end_id_list c ∧ wt ∈ way_start_end_id_list c
    ∧ from_resolved_by wf r' ∧ to_resolved_by wt r'.
Proof.
  intros Hp Hfresh Hr' Husable.
  apply is_usable_spec in Husable as [Hfrom Hto].
  destruct (PrepareRestrictions_trace c c' r' Hp Hr') as (r0 & r1 & Hr0 & H01 & H1').
  rewrite Forall_forall in Hfresh. destruct (Hfresh r0 Hr0) as [Hf0 Ht0].
  (* the end was fixed *)
  assert (Ht1 : node (to (restriction r1)) = SPECIAL_NODEID).
  { destruct H01 as [->|(w & _ & _ & ->)]; [exact Ht0|]. by rewrite fix_start_to. }
  destruct H1' as [->|(wt & Hwt & Hkt & ->)]; [by rewrite Ht1 in Hto|].
  rewrite fix_end_from in Hfrom.
  (* the start was fixed *)
  destruct H01 as [->|(wf & Hwf & Hkf & ->)]; [by rewrite Hf0 in Hfrom|].
  exists wf, wt. split; [exact Hwf|]. split; [exact Hwt|]. split.
  - pose proof (fix_start_changed wf r0 Hkf) as Hres.
    rewrite Hf0 in Hres. specialize (Hres Hfrom).
    unfold from_resolved_by in *. by rewrite fix_end_from, fix_end_via.
  - apply fix_end_changed; [exact Hkt|]. by rewrite Ht1.
Qed.

(** X10: every restriction that [WriteRestrictions] lets through after
    [PrepareRestrictions] was resolved on both sides from way records of the
    input: its [from.way] and [to.way] are ids of way records, its [via.node]
    is the first source or the last target of each of them, and its
    [from.node] and [to.node] are the neighbours of [via.node] on those
    segments. The restrictions are taken as the callbacks append them, both
    node fields at [SPECIAL_NODEID]; no order of any list is assumed. *)
Theorem written_restrictions_resolved `{ExternalSort} (c c' : ExtractionContainers) :
  PrepareRestrictions c = Returned c' →
  Forall is_unresolved (restrictions_list c) →
  ∀ r', r' ∈ usable_restrictions (restrictions_list c') →
    ∃ wf wt,
      wf ∈ way_start_end_id_list c ∧ wt ∈ way_start_end_id_list c
      ∧ from_resolved_by wf r' ∧ to_resolved_by wt r'.
Proof.
  intros Hp Hfresh r' Hr'.
  unfold usable_restrictions in Hr'.
  rewrite list_elem_of_In, filter_In, <- list_elem_of_In in Hr'. destruct Hr' as [Hin Hu].
  by apply (usable_restriction_resolved c c').
Qed.

Lemma written_restrictions_resolved_witness :
  let c' := returned example_containers
              (@PrepareRestrictions merge_stxxl example_containers) in
  ∃ wf wt,
    wf ∈ way_start_end_id_list example_containers
    ∧ wt ∈ way_start_end_id_list example_containers
    ∧ from_resolved_by wf (set_to_node (set_from_node (example_restriction 10 4 11) 3) 8)
    ∧ to_resolved_by wt (set_to_node (set_from_node (example_restriction 10 4 11) 3) 8).
Proof.
  intros c'.
  apply (@written_restrictions_resolved merge_stxxl example_containers c' eq_refl).
  - repeat constructor.
  - apply (list_elem_of_lookup_2 _ 0). reflexivity.
Defined.

(** X11: a restriction whose [from.way] or [to.way] is the id of no way record
    is never written to the restrictions file (with the restrictions as the
    callbacks append them). *)
Theorem unknown_way_not_written `{ExternalSort} (c c' : ExtractionContainers) :
  PrepareRestrictions c = Returned c' →
  Forall is_unresolved (restrictions_list c) →
  ∀ r', r' ∈ restrictions_list c' →
    way (from (restriction r')) ∉ way_id <$> way_start_end_id_list c
    ∨ way (to (restriction r')) ∉ way_id <$> way_start_end_id_list c →
    r' ∉ usable_restrictions (restrictions_list c').
Proof.
  intros Hp Hfresh r' Hr' Hunknown Hwritten.
  unfold usable_restrictions in Hwritten.
  rewrite list_elem_of_In, filter_In in Hwritten. destruct Hwritten as [_ Hu].
  destruct (usable_restriction_resolved c c' r' Hp Hfresh Hr' Hu)
    as (wf & wt & Hwf & Hwt & [Hkf _] & [Hkt _]).
  destruct Hunknown as [Hno|Hno]; apply Hno.
  - rewrite <- Hkf. by apply list_elem_of_fmap_2.
  - rewrite <- Hkt. by apply list_elem_of_fmap_2.
Qed.

Lemma unknown_way_not_written_witness :
  let c' := returned example_containers
              (@PrepareRestrictions merge_stxxl example_containers) in
  set_to_node (example_restriction 77 1 10) 2 ∉ usable_restrictions (restrictions_list c').
Proof.
  intros c'.
  apply (@unknown_way_not_written merge_stxxl example_containers c' eq_refl).
  - repeat constructor.
  - apply (list_elem_of_lookup_2 _ 0). reflexivity.
  - left. apply (bool_decide_unpack _). vm_compute. exact I.
Defined.

(** ** PrepareData as a whole *)

Lemma WriteNodes_written `{ExternalSort} `{Layout} c c' :
  PrepareNodes c = Returned c' →
  WriteNodes c' (write ofstream_open fingerprint)
  = stream_at_end
      (fingerprint
         ++ bytes_of_unsigned
              (N.of_nat (length (written_nodes (used_node_id_list c') (all_nodes_list c')))
               mod 2 ^ 32)
         ++ mjoin (bytes_of_ExternalMemoryNode
                     <$> written_nodes (used_node_id_list c') (all_nodes_list c'))).
Proof.
  intros Hp. destruct (PrepareNodes_spec c c' Hp) as (Hused & _ & Hnodes & _ & _).
  rewrite WriteNodes_stream. by rewrite joined_nodes_written.
Qed.

(** X12: when the three [Prepare...] steps return, [PrepareData] returns with
    nothing printed on standard error and, the three paths being pairwise
    different and such that a file can be opened there, leaves three files:
    the restrictions file of [WriteRestrictions], the name file of
    [WriteNames], and the main file, which is the fingerprint, the node
    count, the node records, the edge count and the edge records, and nothing
    else; its size is the one the two counts announce. *)
Theorem PrepareData_success `{ExternalSort} `{CoordinateCalculation} `{Layout}
    (output_file_name restrictions_file_name name_file_name : string)
    (w : world) (c1 c2 c3 : ExtractionContainers) :
  PrepareRestrictions (containers w) = Returned c1 →
  PrepareNodes c1 = Returned c2 →
  PrepareEdges c2 = Returned c3 →
  can_open w output_file_name = true →
  can_open w restrictions_file_name = true →
  can_open w name_file_name = true →
  output_file_name ≠ restrictions_file_name →
  output_file_name ≠ name_file_name →
  restrictions_file_name ≠ name_file_name →
  let nodes := written_nodes (used_node_id_list c2) (all_nodes_list c2) in
  let edges := used_edges (all_edges_list c3) in
  let main :=
    fingerprint
      ++ bytes_of_unsigned (N.of_nat (length nodes) mod 2 ^ 32)
      ++ mjoin (bytes_of_ExternalMemoryNode <$> nodes)
      ++ bytes_of_unsigned (N.of_nat (length edges) mod 2 ^ 32)
      ++ mjoin ((λ e, bytes_of_NodeBasedEdge (result e)) <$> edges) in
  ∃ w',
    PrepareData output_file_name restrictions_file_name name_file_name w = (Returned (), w')
    ∧ containers w' = c3
    ∧ cerr w' = cerr w
    ∧ files w' !! restrictions_file_name = Some (WriteRestrictions c1)
    ∧ files w' !! output_file_name = Some main
    ∧ files w' !! name_file_name = Some (WriteNames c3)
    ∧ length main
      = (sizeof_FingerPrint + 4 + length nodes * sizeof_ExternalMemoryNode
         + 4 + length edges * sizeof_NodeBasedEdge)%nat.
Proof.
  intros Hr Hn He Hco Hcr Hcn Hor Hon Hrn nodes edges main.
  destruct (PrepareData_run output_file_name restrictions_file_name name_file_name w)
    as (w' & Hrun & _ & Hcase).
  rewrite Hr in Hcase. cbn zeta in Hcase. rewrite Hn in Hcase. cbn zeta in Hcase.
  rewrite He in Hcase. destruct Hcase as (Hcerr & Hcont & Hfiles).
  exists w'. split; [exact Hrun|]. split; [exact Hcont|]. split; [exact Hcerr|].
  rewrite Hfiles.
  split; [|split; [|split]].
  - rewrite files_store_ne by (intros ?; by apply Hrn).
    rewrite !(files_store_ne output_file_name) by (intros ?; by apply Hor).
    by apply files_store_eq.
  - rewrite files_store_ne by exact Hon.
    rewrite files_store_eq by (by rewrite !can_open_store). f_equal.
    rewrite (WriteNodes_written c1 c2 Hn), WriteEdges_contents.
    subst main nodes edges. by rewrite <- !app_assoc.
  - apply files_store_eq. by rewrite !can_open_store.
  - subst main. rewrite !length_app, !length_bytes_of_unsigned.
    rewrite (length_mjoin_fixed _ sizeof_ExternalMemoryNode)
      by apply length_bytes_of_ExternalMemoryNode.
    rewrite (length_mjoin_fixed (λ e, bytes_of_NodeBasedEdge (result e)) sizeof_NodeBasedEdge)
      by (intros; apply length_bytes_of_NodeBasedEdge).
    unfold sizeof_FingerPrint. lia.
Qed.

Lemma PrepareData_success_witness :
  let done := @PrepareData merge_stxxl (constant_distance 111.2) packed_layout
                "map.osrm" "map.osrm.restrictions" "map.osrm.names" example_world in
  (length <$> files (snd done) !! "map.osrm") = Some (8 + 4 + 3 * 14 + 4 + 3 * 22)%nat.
Proof.
  intros done.
  destruct (@PrepareData_success merge_stxxl (constant_distance 111.2) packed_layout
              "map.osrm" "map.osrm.restrictions" "map.osrm.names" example_world
              _ _ _ eq_refl eq_refl eq_refl eq_refl eq_refl eq_refl)
    as (w' & Hrun & _ & _ & _ & Hmain & _ & Hlen); try (intros ?; discriminate).
  subst done. rewrite Hrun. cbn [snd]. rewrite Hmain. cbn [fmap option_fmap option_map].
  exact (f_equal Some Hlen).
Defined.

(** X14: when a sort of [PrepareEdges] raises, [PrepareData] returns after
    printing the one line on standard error, and leaves (the paths being such
    that a file can be opened there) the restrictions file complete, the main
    file cut off behind the node records (no edge count, no edge record), and
    the name file unwritten. *)
Theorem PrepareData_edges_raise `{ExternalSort} `{CoordinateCalculation} `{Layout}
    (output_file_name restrictions_file_name name_file_name : string)
    (w : world) (c1 c2 : ExtractionContainers) (e : std_exception) :
  PrepareRestrictions (containers w) = Returned c1 →
  PrepareNodes c1 = Returned c2 →
  PrepareEdges c2 = Raised e →
  can_open w output_file_name = true →
  can_open w restrictions_file_name = true →
  output_file_name ≠ restrictions_file_name →
  output_file_name ≠ name_file_name →
  restrictions_file_name ≠ name_file_name →
  let nodes := written_nodes (used_node_id_list c2) (all_nodes_list c2) in
  ∃ w',
    PrepareData output_file_name restrictions_file_name name_file_name w = (Returned (), w')
    ∧ cerr w' = cerr w ++ ["Caught Execption:" +:+ what e]
    ∧ files w' !! restrictions_file_name = Some (WriteRestrictions c1)
    ∧ files w' !! output_file_name
      = Some (fingerprint
                ++ bytes_of_unsigned (N.of_nat (length nodes) mod 2 ^ 32)
                ++ mjoin (bytes_of_ExternalMemoryNode <$> nodes))
    ∧ files w' !! name_file_name = files w !! name_file_name.
Proof.
  intros Hr Hn He Hco Hcr Hor Hon Hrn nodes.
  destruct (PrepareData_run output_file_name restrictions_file_name name_file_name w)
    as (w' & Hrun & _ & Hcase).
  rewrite Hr in Hcase. cbn zeta in Hcase. rewrite Hn in Hcase. cbn zeta in Hcase.
  rewrite He in Hcase. destruct Hcase as (Hcerr & Hfiles).
  exists w'. split; [exact Hrun|]. split; [exact Hcerr|].
  rewrite Hfiles.
  split; [|split].
  - rewrite !(files_store_ne output_file_name) by (intros ?; by apply Hor).
    by apply files_store_eq.
  - rewrite files_store_eq by (by rewrite !can_open_store). f_equal.
    by rewrite (WriteNodes_written c1 c2 Hn).
  - rewrite !(files_store_ne output_file_name) by (intros ?; by apply Hon).
    apply files_store_ne. intros ?. by apply Hrn.
Qed.

Lemma PrepareData_edges_raise_witness :
  let done := @PrepareData (bounded_stxxl 6) (constant_distance 111.2) packed_layout
                "map.osrm" "map.osrm.restrictions" "map.osrm.names" many_edges_world in
  cerr (snd done) = ["Caught Execption:stxxl: out of external memory"].
Proof.
  intros done.
  destruct (@PrepareData_edges_raise (bounded_stxxl 6) (constant_distance 111.2)
              packed_layout "map.osrm" "map.osrm.restrictions" "map.osrm.names"
              many_edges_world _ _ _ eq_refl eq_refl eq_refl eq_refl eq_refl)
    as (w' & Hrun & Hcerr & _); try (intros ?; discriminate).
  subst done. rewrite Hrun. exact Hcerr.
Defined.

(** ** WriteEdges on its own *)

(** X15: on a stream whose put position is at its end, [WriteEdges] appends
    the count field and the records of the edges with a positive weight, in
    list order; the count read back is their number when that is below 2^32;
    and, unlike [WriteNodes], it leaves the put position just behind the count
    field, not at the end of the file. *)
Theorem WriteEdges_stream `{Layout} (c : ExtractionContainers) (bs : list byte) :
  let written := used_edges (all_edges_list c) in
  let s := WriteEdges c (stream_at_end bs) in
  contents s
    = bs ++ bytes_of_unsigned (N.of_nat (length written) mod 2 ^ 32)
        ++ mjoin ((λ e, bytes_of_NodeBasedEdge (result e)) <$> written)
  ∧ put s = (length bs + 4)%nat
  ∧ length (contents s) = (length bs + 4 + length written * sizeof_NodeBasedEdge)%nat
  ∧ (N.of_nat (length written) < 2 ^ 32 →
     read_unsigned (contents s) (length bs) = N.of_nat (length written)).
Proof.
  intros written s.
  assert (Hc : contents s
            = bs ++ bytes_of_unsigned (N.of_nat (length written) mod 2 ^ 32)
                ++ mjoin ((λ e, bytes_of_NodeBasedEdge (result e)) <$> written))
    by apply WriteEdges_contents.
  split; [exact Hc|]. split; [|split].
  - subst s. unfold WriteEdges.
    destruct (write_used_edges (all_edges_list c)
                (write (stream_at_end bs) (bytes_of_unsigned 0), 0)) as [s2 n].
    reflexivity.
  - rewrite Hc, !length_app, length_bytes_of_unsigned.
    rewrite (length_mjoin_fixed (λ e, bytes_of_NodeBasedEdge (result e)) sizeof_NodeBasedEdge)
      by (intros; apply length_bytes_of_NodeBasedEdge).
    lia.
  - intros Hsmall. rewrite Hc, read_unsigned_app, N.Div0.mod_mod. by apply N.mod_small.
Qed.

(** ** WriteNames on any names *)

(** X16: whatever the names are, [WriteNames] stores of every name a prefix
    of at most 255 bytes, in list order behind the range table of the prefix
    lengths and the total-length field, and a name of at most 255 bytes is
    stored whole. *)
Theorem WriteNames_prefixes `{Layout} (c : ExtractionContainers) :
  ∃ (stored : list (list byte)) (total_length : N),
    WriteNames c
      = bytes_of_RangeTable (RangeTable_new ((λ p, N.of_nat (length p)) <$> stored))
          ++ bytes_of_unsigned total_length ++ mjoin stored
    ∧ total_length = N.of_nat (length (mjoin stored)) mod 2 ^ 32
    ∧ Forall2 (λ s p, p `prefix_of` s
                      ∧ (length p ≤ 255)%nat
                      ∧ ((length s ≤ 255)%nat → p = s))
              (name_list c) stored.
Proof.
  set (store := λ s : list byte, take (N.to_nat (string_length s)) s).
  assert (Hle : ∀ s, string_length s ≤ N.of_nat (length s) ∧ string_length s ≤ 255).
  { intros s. unfold string_length, to_unsigned.
    pose proof (N.Div0.mod_le (N.of_nat (length s)) (2 ^ 32)). lia. }
  assert (Hlens : string_length <$> name_list c
                  = (λ p, N.of_nat (length p)) <$> (store <$> name_list c)).
  { rewrite <- list_fmap_compose. apply list_fmap_ext. intros _ s _. cbn.
    unfold store. rewrite length_take. destruct (Hle s). lia. }
  exists (store <$> name_list c),
         (N.of_nat (length (mjoin (store <$> name_list c))) mod 2 ^ 32).
  split; [|split; [reflexivity|]].
  - unfold WriteNames.
    pose proof (measure_names_spec (name_list c) 0 0 []) as Hm.
    change ((0 + 0) mod 2 ^ 32) with 0 in Hm. rewrite Hm.
    rewrite !N.add_0_l, app_nil_l, Hlens, sum_N_lengths.
    change ofstream_open with (stream_at_end []).
    rewrite !write_stream_at_end, write_chars_stream. cbn [contents stream_at_end app].
    by rewrite <- app_assoc.
  - apply Forall2_fmap_r, Forall_Forall2_diag, Forall_forall. intros s _.
    destruct (Hle s) as [Hlen H255]. unfold store. split; [|split].
    + apply prefix_take.
    + rewrite length_take. lia.
    + intros Hshort. apply take_ge.
      unfold string_length, to_unsigned.
      rewrite N.mod_small by (change (2 ^ 32) with 4294967296; lia). lia.
Qed.

(** ** The main file is closed under its references *)

(** An edge that [WriteEdges] lets through has both endpoints among the node
    ids, for edges appended fresh, whatever the order of the nodes. *)
Lemma used_edge_endpoints `{ExternalSort} `{CoordinateCalculation} c c' e' :
  PrepareEdges c = Returned c' →
  Forall is_fresh (all_edges_list c) →
  e' ∈ used_edges (all_edges_list c') →
  ∃ e, e ∈ all_edges_list c
       ∧ source (result e') = source (result e) ∧ target (result e') = target (result e)
       ∧ source (result e) ∈ node_id <$> all_nodes_list c
       ∧ target (result e) ∈ node_id <$> all_nodes_list c.
Proof.
  intros Hp Hfresh He'. unfold used_edges in He'.
  rewrite list_elem_of_In, filter_In, <- list_elem_of_In, Z.ltb_lt in He'.
  destruct He' as [He' Hw].
  destruct (PrepareEdges_trace c c' e' Hp He') as (e1 & e3 & He1 & H13 & H3').
  rewrite Forall_forall in Hfresh. specialize (Hfresh e1 He1).
  pose proof (is_fresh_not_set _ Hfresh) as Hunset. destruct Hfresh as [Hw1 _].
  assert (Hw3 : weight (result e3) = 0%Z).
  { destruct H13 as [->|(n & _ & _ & ->)]; exact Hw1. }
  destruct H3' as [->|(m & Hm & Hkm & ->)]; [lia|].
  unfold assign_weight in Hw |- *.
  destruct (source_coordinate_is_set e3) eqn:Hset; [|lia].
  destruct H13 as [->|(n & Hn & Hkn & ->)]; [congruence|].
  exists e1. cbn in Hkm |- *. repeat split; try done.
  - rewrite <- Hkn. by apply list_elem_of_fmap_2.
  - rewrite <- Hkm. by apply list_elem_of_fmap_2.
Qed.

(** X17: the main file is closed under its references: when every edge is
    appended fresh and the ids of its source and target are among the used
    node ids, every edge record that [WriteEdges] writes has a source and a
    target whose node records [WriteNodes] wrote. *)
Theorem written_edges_reference_written_nodes `{ExternalSort} `{CoordinateCalculation}
    (c1 c2 c3 : ExtractionContainers) :
  PrepareNodes c1 = Returned c2 →
  PrepareEdges c2 = Returned c3 →
  Forall is_fresh (all_edges_list c1) →
  Forall (λ e, source (result e) ∈ used_node_id_list c1
               ∧ target (result e) ∈ used_node_id_list c1) (all_edges_list c1) →
  let nodes := written_nodes (used_node_id_list c2) (all_nodes_list c2) in
  ∀ e', e' ∈ used_edges (all_edges_list c3) →
    source (result e') ∈ node_id <$> nodes ∧ target (result e') ∈ node_id <$> nodes.
Proof.
  intros Hn He Hfresh Hused nodes e' He'.
  destruct (PrepareNodes_spec c1 c2 Hn) as (_ & Hmem & _ & _ & Hedges).
  rewrite <- Hedges in Hfresh, Hused.
  destruct (used_edge_endpoints c2 c3 e' He Hfresh He')
    as (e & Hin & -> & -> & Hs & Ht).
  rewrite Forall_forall in Hused. destruct (Hused e Hin) as [Hus Hut].
  subst nodes. rewrite written_nodes_ids, !list_elem_of_filter, !Hmem. done.
Qed.

Lemma written_edges_reference_written_nodes_witness :
  let c2 := returned example_containers (@PrepareNodes merge_stxxl long_duration_containers) in
  let c3 := returned c2 (@PrepareEdges merge_stxxl (constant_distance 111.2) c2) in
  let nodes := written_nodes (used_node_id_list c2) (all_nodes_list c2) in
  source (result (set_weight (set_source_coordinate
                                (example_edge 1 2 EDGE_DURATION 1e10) 0 0) 1))
    ∈ node_id <$> nodes
  ∧ target (result (set_weight (set_source_coordinate
                                  (example_edge 1 2 EDGE_DURATION 1e10) 0 0) 1))
    ∈ node_id <$> nodes.
Proof.
  intros c2 c3 nodes.
  apply (@written_edges_reference_written_nodes merge_stxxl (constant_distance 111.2)
           long_duration_containers c2 c3 eq_refl eq_refl).
  - repeat constructor.
  - repeat constructor.
  - apply (list_elem_of_lookup_2 _ 0). reflexivity.
Defined.

(** ** Running PrepareRestrictions again *)

(** [PrepareRestrictions] is a map over the restrictions, up to the order the
    last sort leaves. *)
Lemma PrepareRestrictions_resolve `{ExternalSort} c c' :
  PrepareRestrictions c = Returned c' →
  restrictions_list c' ≡ₚ resolve_restriction (way_start_end_id_list c') <$> restrictions_list c
  ∧ StronglySorted (ordered FirstAndLastSegmentOfWayStxxlCompare) (way_start_end_id_list c')
  ∧ way_start_end_id_list c' ≡ₚ way_start_end_id_list c.
Proof.
  unfold PrepareRestrictions. intros Hp.
  destruct (PassA c) as [c1|] eqn:HA; [|discriminate]. cbn in Hp.
  destruct (PassA_spec c c1 HA) as (by_from & Hw & Hf & Hrs1).
  apply stxxl_sort_spec in Hw as [Hpw Hsw].
  apply stxxl_sort_spec in Hf as [Hpf _].
  destruct (PassB_spec c1 c' Hsw Hp) as (by_to & Ht & Hrs' & Hways).
  apply stxxl_sort_spec in Ht as [Hpt _].
  rewrite Hways. split; [|done].
  rewrite Hrs', Hpt, Hrs1, <- list_fmap_compose. by rewrite Hpf.
Qed.

Lemma fix_start_fix_end w1 w2 r :
  fix_start w1 (fix_end w2 r) = fix_end w2 (fix_start w1 r).
Proof.
  unfold fix_start, fix_end.
  destruct (first_segment_source_id w2 =? node (via (restriction r))) eqn:A2,
    (last_segment_target_id w2 =? node (via (restriction r))) eqn:B2;
    cbn [restriction via set_to_node set_from_node];
    destruct (first_segment_source_id w1 =? node (via (restriction r))),
      (last_segment_target_id w1 =? node (via (restriction r)));
    cbn [restriction via set_to_node set_from_node];
    rewrite ?A2, ?B2; reflexivity.
Qed.

Lemma fix_end_idempotent w r : fix_end w (fix_end w r) = fix_end w r.
Proof.
  unfold fix_end at 1. rewrite fix_end_via.
  unfold fix_end.
  destruct (first_segment_source_id w =? _); [reflexivity|].
  destruct (last_segment_target_id w =? _); reflexivity.
Qed.

Lemma fix_start_to_way w r :
  way (to (restriction (fix_start w r))) = way (to (restriction r)).
Proof. by rewrite fix_start_to. Qed.

Lemma fix_end_from_way w r :
  way (from (restriction (fix_end w r))) = way (from (restriction r)).
Proof. by rewrite fix_end_from. Qed.

Lemma resolve_restriction_idempotent ways r :
  resolve_restriction ways (resolve_restriction ways r) = resolve_restriction ways r.
Proof.
  unfold resolve_restriction, update_from.
  cbn [key CmpRestrictionContainerByFrom CmpRestrictionContainerByTo].
  destruct (first_match _ (way (from (restriction r))) ways) as [wf|] eqn:Hf.
  - rewrite fix_start_to_way.
    destruct (first_match _ (way (to (restriction r))) ways) as [wt|] eqn:Ht.
    + rewrite fix_end_from_way, fix_start_from_way, Hf.
      rewrite fix_start_fix_end, fix_start_idempotent.
      rewrite fix_end_to_way, fix_start_to_way, Ht.
      apply fix_end_idempotent.
    + rewrite fix_start_from_way, Hf, fix_start_idempotent, fix_start_to_way, Ht.
      reflexivity.
  - destruct (first_match _ (way (to (restriction r))) ways) as [wt|] eqn:Ht.
    + rewrite fix_end_from_way, Hf, fix_end_to_way, Ht. apply fix_end_idempotent.
    + rewrite Hf, Ht. reflexivity.
Qed.

(** X18: when the way records have pairwise distinct way ids, a second
    [PrepareRestrictions] finds the ways in the same order and leaves every
    restriction as the first one left it: the restrictions are the same up to
    the order among those with equal [to.way]. *)
Theorem PrepareRestrictions_twice `{ExternalSort} (c c1 c2 : ExtractionContainers) :
  NoDup (way_id <$> way_start_end_id_list c) →
  PrepareRestrictions c = Returned c1 →
  PrepareRestrictions c1 = Returned c2 →
  way_start_end_id_list c2 = way_start_end_id_list c1
  ∧ restrictions_list c2 ≡ₚ restrictions_list c1.
Proof.
  intros Hnd H1 H2.
  destruct (PrepareRestrictions_resolve c c1 H1) as (Hrs1 & Hs1 & Hp1).
  destruct (PrepareRestrictions_resolve c1 c2 H2) as (Hrs2 & Hs2 & Hp2).
  assert (Hways : way_start_end_id_list c2 = way_start_end_id_list c1).
  { apply (sorted_distinct_keys_unique FirstAndLastSegmentOfWayStxxlCompare
             (way_start_end_id_list c)); try assumption.
    by rewrite Hp2. }
  split; [exact Hways|].
  rewrite Hrs2, Hways.
  assert (Hfix : resolve_restriction (way_start_end_id_list c1) <$> restrictions_list c1
                 = restrictions_list c1).
  { rewrite <- (list_fmap_id (restrictions_list c1)) at 2.
    apply Forall_fmap_ext_1, Forall_forall. intros r1 Hr1.
    rewrite Hrs1 in Hr1. apply list_elem_of_fmap in Hr1 as (r & -> & _).
    apply resolve_restriction_idempotent. }
  by rewrite Hfix.
Qed.

Lemma PrepareRestrictions_twice_witness :
  let c1 := returned example_containers
              (@PrepareRestrictions reversing_stxxl example_containers) in
  let c2 := returned c1 (@PrepareRestrictions reversing_stxxl c1) in
  restrictions_list c2 ≡ₚ restrictions_list c1.
Proof.
  intros c1 c2.
  refine (proj2 (@PrepareRestrictions_twice reversing_stxxl example_containers c1 c2
                   _ eq_refl eq_refl)).
  apply (bool_decide_unpack _). vm_compute. exact I.
Defined.
